(** * goinject: scoped resolution engine

    A shallow embedding of the dependency injection container
    [github.com/illuin-tech/goinject] (instance registry, scopes, injector)
    and the proofs of its lifetime and resolution properties.

    Conventions of the embedding:
    - Go pointers ([*binding], [*instanceRegistry], [*Injector]) are addresses
      ([nat]) into explicit heaps kept in the [world];
    - functions written by the user of the library (providers, destroy
      methods, invoked functions) are state transformers over a state [U] of
      their own: they do not call back into the container;
    - a computation of the container is a state transformer on the [world]
      that ends normally or aborts (Go panic, self-deadlock on a
      [sync.RWMutex], or exhausted recursion budget);
    - the code runs on one goroutine: of the three locks of a registry only
      the per-binding [RWMutex] is observable, when a constructor re-enters
      the registry for the binding under construction. *)

From Stdlib Require Import Ascii String.
From stdpp Require Import gmap strings list fin_maps countable.

Set Default Proof Using "Type".
Set Warnings "-register-all".

(** ** [reflect.Type] *)

Record StructField (T : Type) : Type := mkField {
  fName : string;
  fType : T;
  fAnonymous : bool;
  fInjectTag : option string;      (* Tag.Lookup("inject") *)
  fExported : bool;
}.
Arguments mkField {T}.
Arguments fName {T}.
Arguments fType {T}.
Arguments fAnonymous {T}.
Arguments fInjectTag {T}.
Arguments fExported {T}.

Inductive rtype : Type :=
| TNamed (name : string)                       (* basic, interface or other defined type *)
| TPtr (elem : rtype)
| TSlice (elem : rtype)
| TFunc (ins outs : list rtype)
| TStruct (name : string) (fields : list (StructField rtype)).

Inductive Kind := KPtr | KSlice | KFunc | KStruct | KOther.

Definition kindOf (t : rtype) : Kind :=
  match t with
  | TNamed _ => KOther
  | TPtr _ => KPtr
  | TSlice _ => KSlice
  | TFunc _ _ => KFunc
  | TStruct _ _ => KStruct
  end.

Section rtype_nested_induction.
Variable P : rtype → Prop.
Hypothesis HNamed : ∀ n, P (TNamed n).
Hypothesis HPtr : ∀ e, P e → P (TPtr e).
Hypothesis HSlice : ∀ e, P e → P (TSlice e).
Hypothesis HFunc : ∀ i o, Forall P i → Forall P o → P (TFunc i o).
Hypothesis HStruct : ∀ n fs, Forall (λ f, P (fType f)) fs → P (TStruct n fs).

Fixpoint rtype_nested_ind (t : rtype) : P t :=
  match t with
  | TNamed n => HNamed n
  | TPtr e => HPtr e (rtype_nested_ind e)
  | TSlice e => HSlice e (rtype_nested_ind e)
  | TFunc i o =>
      let all := fix all (l : list rtype) : Forall P l :=
        match l with
        | [] => Forall_nil_2 P
        | x :: l' => Forall_cons_2 P x l' (rtype_nested_ind x) (all l')
        end in
      HFunc i o (all i) (all o)
  | TStruct n fs =>
      HStruct n fs
        ((fix all (l : list (StructField rtype)) : Forall (λ f, P (fType f)) l :=
            match l with
            | [] => Forall_nil_2 _
            | x :: l' =>
                Forall_cons_2 (λ f, P (fType f)) x l' (rtype_nested_ind (fType x)) (all l')
            end) fs)
  end.
End rtype_nested_induction.

(** Types are keys of the binding table: they are countable, through an
    encoding into stdpp's generic trees. *)

Definition enc_bool (b : bool) : gen_tree string := GenNode (if b then 1 else 0) [].
Definition enc_opt (o : option string) : gen_tree string :=
  match o with None => GenNode 0 [] | Some s => GenNode 1 [GenLeaf s] end.

Fixpoint rtype_enc (t : rtype) : gen_tree string :=
  match t with
  | TNamed n => GenNode 0 [GenLeaf n]
  | TPtr e => GenNode 1 [rtype_enc e]
  | TSlice e => GenNode 2 [rtype_enc e]
  | TFunc i o => GenNode 3 [GenNode 0 (map rtype_enc i); GenNode 0 (map rtype_enc o)]
  | TStruct n fs =>
      GenNode 4
        [GenLeaf n;
         GenNode 0 (map (λ f, GenNode 0 [GenLeaf (fName f); rtype_enc (fType f);
                                         enc_bool (fAnonymous f); enc_opt (fInjectTag f);
                                         enc_bool (fExported f)]) fs)]
  end.

Definition dec_bool (t : gen_tree string) : option bool :=
  match t with
  | GenNode 0 [] => Some false
  | GenNode 1 [] => Some true
  | _ => None
  end.

Definition dec_opt (t : gen_tree string) : option (option string) :=
  match t with
  | GenNode 0 [] => Some None
  | GenNode 1 [GenLeaf s] => Some (Some s)
  | _ => None
  end.

Definition field_dec (rec : gen_tree string → option rtype) (t : gen_tree string)
    : option (StructField rtype) :=
  match t with
  | GenNode _ [GenLeaf fn; ft; fa; fi; fe] =>
      ft' ← rec ft; fa' ← dec_bool fa; fi' ← dec_opt fi; fe' ← dec_bool fe;
      Some (mkField fn ft' fa' fi' fe')
  | _ => None
  end.

Fixpoint rtype_dec (t : gen_tree string) : option rtype :=
  match t with
  | GenLeaf _ => None
  | GenNode tag args =>
      match tag, args with
      | 0, [GenLeaf n] => Some (TNamed n)
      | 1, [e] => TPtr <$> rtype_dec e
      | 2, [e] => TSlice <$> rtype_dec e
      | 3, [GenNode _ i; GenNode _ o] =>
          i' ← mapM rtype_dec i; o' ← mapM rtype_dec o; Some (TFunc i' o')
      | 4, [GenLeaf n; GenNode _ fs] =>
          fs' ← mapM (field_dec rtype_dec) fs; Some (TStruct n fs')
      | _, _ => None
      end
  end.

Lemma mapM_map_Some {A B} (f : B → option A) (g : A → B) (l : list A) :
  Forall (λ x, f (g x) = Some x) l → mapM f (map g l) = Some l.
Proof. induction 1 as [|x l Hx _ IH]; simpl; [done|]. by rewrite Hx, IH. Qed.

Lemma rtype_dec_enc t : rtype_dec (rtype_enc t) = Some t.
Proof.
  induction t as [n|e IH|e IH|i o IHi IHo|n fs IH] using rtype_nested_ind; simpl.
  - done.
  - by rewrite IH.
  - by rewrite IH.
  - by rewrite !mapM_map_Some.
  - rewrite mapM_map_Some; [done|].
    revert IH. apply Forall_impl. intros [fn ft fa fi fe] Hx. simpl in *.
    rewrite Hx. by destruct fa, fi, fe.
Qed.

#[global] Instance rtype_eq_dec : EqDecision rtype.
Proof.
  intros t1 t2. destruct (decide (rtype_enc t1 = rtype_enc t2)) as [E|E].
  - left. apply (inj Some). by rewrite <-!rtype_dec_enc, E.
  - right. intros ->. by apply E.
Defined.

#[global] Instance rtype_countable : Countable rtype :=
  inj_countable rtype_enc rtype_dec rtype_dec_enc.

(** ** Errors ([errors.go] and the [fmt.Errorf] wrappers) *)

Inductive wrapSite :=
| FailedToCallInvocation                     (* "failed to call invokation function: %w" *)
| InvocationReturnedError                    (* "invokation returned error: %w" *)
| FailedToGetSingleton                       (* "failed to get singleton instance: %w" *)
| FailedToResolveArgument (i : nat)          (* "failed to resolve function argument #%d: %w" *)
| FailedToCallProvider (providedType : rtype)  (* "failed to call provider function for type %q: %w" *)
| ProviderReturnedError (providedType : rtype). (* "provider for type %q returned error: %w" *)

Inductive invalidInputMessage :=
| CantInvokeOnNil
| CantInvokeNonFunction (ftype : rtype)
| CantInvokeReturnType.

Inductive configurationMessage :=
| CannotAcceptNilProvider
| ProviderShouldBeFunction
| ExpectedInstanceAndOptionallyError
| SecondReturnShouldBeError
| ErrorInstallingModule (name : string)
| ErrorConfiguringProvider (providedType : rtype)
| CannotAssign (providedType targetType : rtype)
| WithDestroyArgument.

Inductive error :=
| userError (t : rtype) (d : nat)              (* an error value made by user code *)
| errorString (msg : string)                   (* fmt.Errorf of a fixed text *)
| unknownScopeError (scope : string)           (* fmt.Errorf("unknown scope %q for binding", scope) *)
| wrapError (site : wrapSite) (cause : error)  (* fmt.Errorf("...: %w", cause) *)
| invalidInputError (message : invalidInputMessage)
| injectionError (rType : rtype) (annotation : string) (cause : error)
| contextScopedNotActiveError
| injectorConfigurationError (message : configurationMessage) (cause : option error).

Definition newInvalidInputError := invalidInputError.
Definition newInjectionError := injectionError.
Definition newContextScopedNotActiveError := contextScopedNotActiveError.
Definition newInjectorConfigurationError := injectorConfigurationError.


Fixpoint errorChain (e : error) : list error :=
  e :: match e with
       | wrapError _ cause => errorChain cause
       | injectionError _ _ cause => errorChain cause
       | injectorConfigurationError _ (Some cause) => errorChain cause
       | _ => []
       end.

(** ** [context.Context] *)

(** Keys and values carried by a context.  A key is Go's [any]: [keyNil] is
    the nil interface.  A value is a registry pointer or anything else. *)
Inductive ctxKey := keyNil | keyOf (k : nat).
Inductive ctxVal := CReg (r : nat) | COther (d : nat).

Inductive ctx := Background | WithValue (parent : ctx) (key : nat) (val : ctxVal).

(** A [context.Context] interface value; [None] is nil. *)
Definition Context := option ctx.

#[global] Instance ctxKey_eq_dec : EqDecision ctxKey.
Proof. solve_decision. Defined.

Fixpoint ctxValue (c : ctx) (key : ctxKey) : option ctxVal :=
  match c with
  | Background => None
  | WithValue parent k v => if decide (keyOf k = key) then Some v else ctxValue parent key
  end.

(** [ctx.Value(key).( *instanceRegistry)] *)
Definition ctxRegistry (c : ctx) (key : ctxKey) : option nat :=
  match ctxValue c key with
  | Some (CReg r) => Some r
  | _ => None
  end.

(** ** [reflect.Value] *)

Inductive value :=
| VInvalid                                        (* reflect.Value{} *)
| VData (t : rtype) (d : nat)                     (* a user value of type t; d = 0 is t's zero value *)
| VSlice (t : rtype) (elems : list value)         (* built by MakeSlice and Append *)
| VContext (c : ctx)                              (* reflect.ValueOf(ctx), ctx not nil *)
| VInjector (i : nat)                             (* an *Injector *)
| VProvider (t : rtype) (i : nat) (bindingType : rtype) (annotation : string) (optional : bool)
                                                  (* the closure made by createProviderValue *)
| VStruct (t : rtype) (fields : list value)       (* a Params struct *)
| VStructPtr (t : rtype) (fields : list value)    (* reflect.New of a Params struct *)
| VError (e : option error).                      (* a value of interface type error *)

Definition Instance := value.

Definition IsValid (v : value) : bool :=
  match v with VInvalid => false | _ => true end.

(** [reflect.ValueOf(ctx)] for an interface value [ctx]. *)
Definition ValueOfContext (c : Context) : value :=
  match c with None => VInvalid | Some c => VContext c end.

Definition Zero (t : rtype) : value := VData t 0.

(** How a computation ends. *)
Inductive abort := Panic (msg : string) | Deadlock | OutOfFuel.

Inductive outcome (A : Type) := Ok (a : A) | Abort (r : abort).
Arguments Ok {A}.
Arguments Abort {A}.

Section Model.
Context {U : Type}.

(** A Go function seen through [reflect]: its signature and what a call
    does to the state of the user code. *)
Record func := mkFunc {
  fIn : list rtype;
  fOut : list rtype;
  fCall : list value → U → list value * U;
}.

(** An [any] that is expected to hold a function. *)
Inductive anyFunc := anyNil | anyNonFunc (t : rtype) | anyFunction (f : func).

(** [binding.go]: a binding; [bAddr] is the address of the [*binding]. *)
Record binding := mkBinding {
  bAddr : nat;
  typeof : rtype;
  provider : func;
  providedType : rtype;
  annotatedWith : string;
  scope : string;
  destroyMethod : option (value → U → U);
}.

(** ** The instance registry *)

Record instanceRegistry := mkRegistry {
  instanceLock : gmap nat bool;        (* per-binding RWMutex; true = write-locked *)
  instances : gmap nat Instance;       (* sync.Map keyed by *binding *)
  destroyMethods : list (U → U);
}.

Inductive Scope :=
| perLookUpScope
| singletonScope (registry : nat)
| contextualScope (key : ctxKey).

Record Injector := mkInjector {
  bindings : gmap rtype (gmap string (list binding));
  scopes : gmap string Scope;
  injSingletonScope : nat;             (* the registry of the singletonScope *)
}.

(** The heaps, the allocator of binding addresses, the state of the user
    code and, as ghost state, the log of constructor invocations
    (registry, binding), most recent first. *)
Record world := mkWorld {
  registries : gmap nat instanceRegistry;
  injectors : gmap nat Injector;
  nextBinding : nat;
  user : U;
  created : list (nat * nat);
}.

Definition setRegistries (f : gmap nat instanceRegistry → gmap nat instanceRegistry)
    (w : world) : world :=
  mkWorld (f (registries w)) (injectors w) (nextBinding w) (user w) (created w).
Definition setInjectors (f : gmap nat Injector → gmap nat Injector) (w : world) : world :=
  mkWorld (registries w) (f (injectors w)) (nextBinding w) (user w) (created w).
Definition setNextBinding (n : nat) (w : world) : world :=
  mkWorld (registries w) (injectors w) n (user w) (created w).
Definition setUser (f : U → U) (w : world) : world :=
  mkWorld (registries w) (injectors w) (nextBinding w) (f (user w)) (created w).
Definition setCreated (f : list (nat * nat) → list (nat * nat)) (w : world) : world :=
  mkWorld (registries w) (injectors w) (nextBinding w) (user w) (f (created w)).

Definition setInstanceLock (f : gmap nat bool → gmap nat bool) (r : instanceRegistry) :=
  mkRegistry (f (instanceLock r)) (instances r) (destroyMethods r).
Definition setInstances (f : gmap nat Instance → gmap nat Instance) (r : instanceRegistry) :=
  mkRegistry (instanceLock r) (f (instances r)) (destroyMethods r).
Definition setDestroyMethods (f : list (U → U) → list (U → U)) (r : instanceRegistry) :=
  mkRegistry (instanceLock r) (instances r) (f (destroyMethods r)).

(** ** Computations *)

Definition M (A : Type) : Type := world → outcome A * world.

Definition ret {A} (a : A) : M A := λ w, (Ok a, w).

Definition bind {A B} (m : M A) (f : A → M B) : M B :=
  λ w, match m w with
       | (Ok a, w') => f a w'
       | (Abort r, w') => (Abort r, w')
       end.

Definition panic {A} (msg : string) : M A := λ w, (Abort (Panic msg), w).
Definition deadlock {A} : M A := λ w, (Abort Deadlock, w).
Definition outOfFuel {A} : M A := λ w, (Abort OutOfFuel, w).
Definition getWorld : M world := λ w, (Ok w, w).
Definition modifyWorld (f : world → world) : M unit := λ w, (Ok tt, f w).

(** A call of a closure of the user code. *)
Definition userStep (f : U → U) : M unit := modifyWorld (setUser f).

End Model.

Arguments func : clear implicits.
Arguments anyFunc : clear implicits.
Arguments binding : clear implicits.
Arguments instanceRegistry : clear implicits.
Arguments Injector : clear implicits.
Arguments world : clear implicits.
Arguments M : clear implicits.

Declare Scope go_scope.
Delimit Scope go_scope with go.
Notation "x <- m ;; k" := (bind m (λ x, k))
  (at level 100, m at next level, right associativity) : go_scope.
Notation "m ;;; k" := (bind m (λ _, k))
  (at level 100, right associativity) : go_scope.
Open Scope go_scope.

(** ** The instance registry and the scopes *)

Section Registry.
Context {U : Type}.
Local Abbreviation M := (M U).
Local Abbreviation world := (world U).
Local Abbreviation instanceRegistry := (instanceRegistry U).

Definition getRegistry (r : nat) : M instanceRegistry :=
  λ w, match registries w !! r with
       | Some reg => (Ok reg, w)
       | None => (Abort (Panic "invalid memory address or nil pointer dereference"), w)
       end.

Definition modifyRegistry (r : nat) (f : instanceRegistry → instanceRegistry) : M unit :=
  modifyWorld (setRegistries (alter f r)).

(** Ghost step: the constructor of [binding] is about to run in registry [r]. *)
Definition logCreation (r binding : nat) : M unit :=
  modifyWorld (setCreated (cons (r, binding))).

Definition resolveBinding (r : nat) (binding : nat)
    (instanceCreator : M (Instance * option error)) : M (Instance * option error) :=
  reg <- getRegistry r ;;                                     (* r.mu.Lock() *)
  match instanceLock reg !! binding with
  | Some l =>                                                 (* r.mu.Unlock() *)
      if l : bool then deadlock                               (* l.RLock() on a lock this goroutine write-holds *)
      else
        match instances reg !! binding with                   (* r.instances.Load(binding) *)
        | Some instance => ret (instance, None)
        | None => panic "interface conversion: interface is nil, not goinject.Instance"
        end
  | None =>
      modifyRegistry r (setInstanceLock <[binding := true]>) ;;;   (* new(sync.RWMutex); l.Lock(); r.mu.Unlock() *)
      logCreation r binding ;;;
      res <- instanceCreator ;;
      let '(instance, err) := res in
      modifyRegistry r (setInstances <[binding := instance]>) ;;;
      modifyRegistry r (setInstanceLock <[binding := false]>) ;;;  (* deferred l.Unlock() *)
      ret (instance, err)
  end.

Definition registerDestructionCallback (r : nat) (destroyCallback : U → U) : M unit :=
  _ <- getRegistry r ;;
  modifyRegistry r (setDestroyMethods (λ methods, methods ++ [destroyCallback])).

(** The loop [for i := len(r.destroyMethods) - 1; i >= 0; i--], with [n = i + 1]. *)
Fixpoint shutdownLoop (methods : list (U → U)) (n : nat) : M unit :=
  match n with
  | 0 => ret tt
  | S i =>
      match methods !! i with
      | Some destroy => userStep destroy ;;; shutdownLoop methods i
      | None => panic "index out of range"
      end
  end.

Definition shutdown (r : nat) : M unit :=
  reg <- getRegistry r ;;
  shutdownLoop (destroyMethods reg) (length (destroyMethods reg)) ;;;
  modifyRegistry r (setDestroyMethods (λ _, [])).

Definition emptyRegistry : instanceRegistry := mkRegistry ∅ ∅ [].

Definition newInstanceRegistry : M nat :=
  w <- getWorld ;;
  let r := fresh (dom (registries w)) in
  modifyWorld (setRegistries <[r := emptyRegistry]>) ;;;
  ret r.

(** *** perLookUpScope *)

Definition perLookUpScope_ResolveBinding (_ : Context) (_ : nat)
    (instanceCreator : M (Instance * option error)) : M (Instance * option error) :=
  instanceCreator.

Definition perLookUpScope_RegisterDestructionCallback (_ : Context) (_ : U → U) : M unit :=
  ret tt.

(** *** singletonScope *)

Definition newSingletonScope : M nat := newInstanceRegistry.

Definition singletonScope_ResolveBinding (s : nat) (_ : Context) (binding : nat)
    (instanceCreator : M (Instance * option error)) : M (Instance * option error) :=
  resolveBinding s binding instanceCreator.

Definition singletonScope_RegisterDestructionCallback (s : nat) (_ : Context)
    (destroyCallback : U → U) : M unit :=
  registerDestructionCallback s destroyCallback.

Definition singletonScope_Shutdown (s : nat) : M unit := shutdown s.

(** *** contextualScope *)

Definition contextualScope_ResolveBinding (key : ctxKey) (ctx : Context) (binding : nat)
    (instanceCreator : M (Instance * option error)) : M (Instance * option error) :=
  match ctx with
  | None => ret (VInvalid, Some newContextScopedNotActiveError)
  | Some c =>
      match ctxRegistry c key with
      | None => ret (VInvalid, Some newContextScopedNotActiveError)
      | Some scopeHolder => resolveBinding scopeHolder binding instanceCreator
      end
  end.

Definition contextualScope_RegisterDestructionCallback (key : ctxKey) (ctx : Context)
    (destroyCallback : U → U) : M unit :=
  match ctx with
  | None => panic "invalid memory address or nil pointer dereference"  (* ctx.Value on a nil interface *)
  | Some c =>
      match ctxRegistry c key with
      | Some scopeHolder => registerDestructionCallback scopeHolder destroyCallback
      | None => ret tt
      end
  end.

Definition NewContextualScope (key : ctxKey) : Scope := contextualScope key.

Definition WithContextualScopeEnabled (ctx : Context) (key : ctxKey) : M Context :=
  r <- newInstanceRegistry ;;
  match ctx, key with                                          (* context.WithValue *)
  | None, _ => panic "cannot create context from nil parent"
  | Some _, keyNil => panic "nil key"
  | Some c, keyOf k => ret (Some (WithValue c k (CReg r)))
  end.

Definition ShutdownContextualScope (ctx : Context) (key : ctxKey) : M unit :=
  match ctx with
  | None => panic "invalid memory address or nil pointer dereference"
  | Some c =>
      match ctxRegistry c key with
      | Some holder => shutdown holder
      | None => ret tt
      end
  end.

(** *** The [Scope] interface *)

Definition Scope_ResolveBinding (s : Scope) (ctx : Context) (binding : nat)
    (instanceCreator : M (Instance * option error)) : M (Instance * option error) :=
  match s with
  | perLookUpScope => perLookUpScope_ResolveBinding ctx binding instanceCreator
  | singletonScope r => singletonScope_ResolveBinding r ctx binding instanceCreator
  | contextualScope key => contextualScope_ResolveBinding key ctx binding instanceCreator
  end.

Definition Scope_RegisterDestructionCallback (s : Scope) (ctx : Context)
    (destroyCallback : U → U) : M unit :=
  match s with
  | perLookUpScope => perLookUpScope_RegisterDestructionCallback ctx destroyCallback
  | singletonScope r => singletonScope_RegisterDestructionCallback r ctx destroyCallback
  | contextualScope key => contextualScope_RegisterDestructionCallback key ctx destroyCallback
  end.

End Registry.

(** ** Pieces of the Go library the injector relies on *)

(** [strings.Split(s, ",")] *)
Fixpoint splitComma (s : string) : list string :=
  match s with
  | EmptyString => [EmptyString]
  | String c s' =>
      if Ascii.eqb c ","%char then EmptyString :: splitComma s'
      else match splitComma s' with
           | h :: t => String c h :: t
           | [] => [String c EmptyString]
           end
  end.

(** White space in the sense of [unicode.IsSpace], on ASCII. *)
Definition isSpace (c : ascii) : bool :=
  let n := Ascii.nat_of_ascii c in ((9 <=? n) && (n <=? 13)) || (n =? 32).

Fixpoint trimLeft (s : string) : string :=
  match s with
  | String c s' => if isSpace c then trimLeft s' else s
  | EmptyString => EmptyString
  end.

Fixpoint trimRight (s : string) : string :=
  match s with
  | EmptyString => EmptyString
  | String c s' =>
      match trimRight s' with
      | EmptyString => if isSpace c then EmptyString else String c EmptyString
      | t => String c t
      end
  end.

(** [strings.TrimSpace] *)
Definition TrimSpace (s : string) : string := trimRight (trimLeft s).

Definition errorReflectType : rtype := TNamed "error".
Definition invocationContextReflectType : rtype := TNamed "goinject.InvocationContext".

(** [reflect.TypeOf(Params{})] *)
Definition paramType : rtype := TStruct "goinject.Params" [].

(** [reflect.TypeFor[*Injector]()] *)
Definition injectorType : rtype :=
  TPtr (TStruct "goinject.Injector"
          [ mkField "bindings" (TNamed "map[reflect.Type]map[string][]*goinject.binding") false None false;
            mkField "scopes" (TNamed "map[string]goinject.Scope") false None false;
            mkField "singletonScope" (TPtr (TNamed "goinject.singletonScope")) false None false ]).

Definition PerLookUp : string := "inject.PerLookUp".
Definition Singleton : string := "inject.Singleton".

(** Returns true if t embeds e *)
Fixpoint embedsType (t e : rtype) : bool :=
  match t with
  | TPtr elem => embedsType elem e
  | TStruct _ fields => existsb (λ f, fAnonymous f && bool_decide (fType f = e)) fields
  | _ => false
  end.

Definition EmbedsParams (o : rtype) : bool := embedsType o paramType.

Definition isProviderType (t : rtype) : bool :=
  match t with
  | TFunc ins outs =>
      (length ins =? 1) && bool_decide (ins !! 0 = Some invocationContextReflectType) &&
      (length outs =? 2) && bool_decide (outs !! 1 = Some errorReflectType)
  | _ => false
  end.

(** ** The injector *)

Section Injector.
Context {U : Type}.
Local Abbreviation M := (M U).
Local Abbreviation world := (world U).
Local Abbreviation binding := (binding U).
Local Abbreviation func := (func U).
Local Abbreviation Injector := (Injector U).

(** The assignability relation of the Go type system ([reflect.Type.AssignableTo]),
    the process environment ([os.LookupEnv]) and the order in which a [range]
    over a map visits its entries are not decided by the library. *)
Variable AssignableTo : rtype → rtype → bool.
Variable LookupEnv : string → option string.
Variable mapIter : ∀ A : Type, list A → list A.

Definition getInjector (i : nat) : M Injector :=
  λ w, match injectors w !! i with
       | Some inj => (Ok inj, w)
       | None => (Abort (Panic "invalid memory address or nil pointer dereference"), w)
       end.

Definition modifyInjector (i : nat) (f : Injector → Injector) : M unit :=
  modifyWorld (setInjectors (alter f i)).

(** [s[i]] on a slice of values *)
Definition index (s : list value) (i : nat) : M value :=
  match s !! i with
  | Some v => ret v
  | None => panic "index out of range"
  end.

(** [reflect.Value.IsZero] *)
Fixpoint isZero (v : value) : bool :=
  match v with
  | VInvalid => false
  | VData _ d => d =? 0
  | VSlice _ _ => false
  | VContext _ => false
  | VInjector _ => false
  | VProvider _ _ _ _ _ => false
  | VStruct _ fields => forallb isZero fields
  | VStructPtr _ _ => false
  | VError e => match e with None => true | Some _ => false end
  end.

Definition IsZero (v : value) : M bool :=
  match v with
  | VInvalid => panic "reflect: call of reflect.Value.IsZero on zero Value"
  | _ => ret (isZero v)
  end.

(** [reflect.Value.Call] *)
Definition Call (f : func) (args : list value) : M (list value) :=
  if forallb IsValid args then
    λ w, let '(res, u) := fCall f args (user w) in (Ok res, setUser (λ _, u) w)
  else panic "reflect: Call using zero Value argument".

(** [reflect.Append(n, r)] on a slice value *)
Definition Append (n r : value) : M value :=
  match n with
  | VSlice t elems =>
      if IsValid r then ret (VSlice t (elems ++ [r]))
      else panic "reflect: call of reflect.Value.Set on zero Value"
  | _ => panic "reflect: call of reflect.Append on non-slice Value"
  end.

(** The error held by [v.Interface()], for [v] a result of a call: nil, an
    error, or no error at all when the dynamic type does not implement it. *)
Definition interfaceError (v : value) : M (option error) :=
  match v with
  | VInvalid => panic "reflect: call of reflect.Value.Interface on zero Value"
  | VError e => ret e
  | VData t d => ret (if AssignableTo t errorReflectType then Some (userError t d) else None)
  | _ => ret None
  end.

(** The resolution functions call each other through
    [getInstanceOfAnnotatedType]; [rec] stands for that function at the
    injector at hand. *)
Section Resolution.
Variable rec : Context → rtype → string → bool → M (value * option error).
Variable i : nat.                     (* the *Injector *)

Definition findBindingsForAnnotatedType (injector : Injector) (t : rtype)
    (annotation : string) : list binding :=
  match bindings injector !! t with
  | Some byAnnotation =>
      let bindings := default [] (byAnnotation !! annotation) in
      if 0 <? length bindings then bindings else []
  | None => []
  end.

Definition getScopeFromBinding (injector : Injector) (b : binding) : Scope + error :=
  match scopes injector !! scope b with
  | Some scope => inl scope
  | None => inr (newInjectionError (typeof b) (annotatedWith b) (unknownScopeError (scope b)))
  end.

(** The loop of [setParamFields] from field [fieldIndex] on; [fields] are
    the values of the fields of the struct being filled. *)
Fixpoint setParamFieldsLoop (ctx : Context) (structFields : list (StructField rtype))
    (fieldIndex : nat) (fields : list value) : M (list value * option error) :=
  match structFields with
  | [] => ret (fields, None)
  | f :: rest =>
      if bool_decide (fType f = paramType) then
        setParamFieldsLoop ctx rest (S fieldIndex) fields
      else
        match fInjectTag f with
        | None => setParamFieldsLoop ctx rest (S fieldIndex) fields
        | Some tag =>
            if negb (fExported f) then                           (* !field.CanSet() *)
              ret (fields, Some (newInjectionError (fType f) tag
                                   (errorString "use inject tag on unsettable field")))
            else
              let optional :=
                existsb (λ option, String.eqb (TrimSpace option) "optional") (splitComma tag) in
              let tag := default EmptyString (head (splitComma tag)) in
              res <- rec ctx (fType f) tag optional ;;
              let '(instance, err) := res in
              match err with
              | Some err => ret (fields, Some (newInjectionError (fType f) tag err))
              | None =>
                  if IsValid instance then
                    setParamFieldsLoop ctx rest (S fieldIndex) (<[fieldIndex := instance]> fields)
                  else if optional then
                    setParamFieldsLoop ctx rest (S fieldIndex) fields
                  else
                    ret (fields, Some (newInjectionError (fType f) tag
                                         (errorString "cannot get valid instance from scope")))
              end
        end
  end.

Definition setParamFields (ctx : Context) (embeddedType : rtype)
    : M (list value * option error) :=
  match embeddedType with
  | TStruct _ structFields =>
      setParamFieldsLoop ctx structFields 0 (map (λ f, Zero (fType f)) structFields)
  | _ => panic "reflect: NumField of non-struct type"
  end.

Definition createEmbeddedParams (ctx : Context) (embeddedType : rtype)
    : M (value * option error) :=
  match embeddedType with
  | TPtr elem =>
      res <- setParamFields ctx elem ;;
      let '(fields, err) := res in ret (VStructPtr embeddedType fields, err)
  | _ =>
      res <- setParamFields ctx embeddedType ;;
      let '(fields, err) := res in ret (VStruct embeddedType fields, err)
  end.

Definition getFunctionArgumentInstance (ctx : Context) (argType : rtype)
    : M (value * option error) :=
  if EmbedsParams argType then createEmbeddedParams ctx argType
  else rec ctx argType EmptyString false.

(** The loop of [callFunctionWithArgumentInstance] from argument [i] on. *)
Fixpoint resolveArguments (ctx : Context) (argIndex : nat) (argTypes : list rtype)
    : M (list value * option error) :=
  match argTypes with
  | [] => ret ([], None)
  | argType :: rest =>
      res <- getFunctionArgumentInstance ctx argType ;;
      let '(arg, err) := res in
      match err with
      | Some err => ret ([], Some (wrapError (FailedToResolveArgument argIndex) err))
      | None =>
          res <- resolveArguments ctx (S argIndex) rest ;;
          let '(args, err) := res in
          match err with
          | Some err => ret ([], Some err)
          | None => ret (arg :: args, None)
          end
      end
  end.

Definition callFunctionWithArgumentInstance (ctx : Context) (fValue : func)
    : M (list value * option error) :=
  res <- resolveArguments ctx 0 (fIn fValue) ;;
  let '(args, err) := res in
  match err with
  | Some err => ret ([], Some err)
  | None => res <- Call fValue args ;; ret (res, None)
  end.

(** [binding.create] *)
Definition binding_create (ctx : Context) (b : binding) : M (value * option error) :=
  res <- callFunctionWithArgumentInstance ctx (provider b) ;;
  let '(res, err) := res in
  match err with
  | Some err => ret (VInvalid, Some (wrapError (FailedToCallProvider (providedType b)) err))
  | None =>
      err <- (if length (fOut (provider b)) =? 2 then
                errValue <- index res 1 ;; interfaceError errValue
              else ret None) ;;
      res0 <- index res 0 ;;
      match err with
      | Some err => ret (res0, Some (wrapError (ProviderReturnedError (providedType b)) err))
      | None => ret (res0, None)
      end
  end.

(** The closure that [getScopedInstanceFromBinding] passes to the scope. *)
Definition instanceCreator (scope : Scope) (ctx : Context) (b : binding)
    : M (Instance * option error) :=
  res <- binding_create ctx b ;;
  let '(val, creationError) := res in
  match creationError, destroyMethod b with
  | None, Some destroyMethod =>
      zero <- IsZero val ;;
      (if negb zero
       then Scope_RegisterDestructionCallback scope ctx (destroyMethod val)
       else ret tt) ;;;
      ret (val, creationError)
  | _, _ => ret (val, creationError)
  end.

Definition getScopedInstanceFromBinding (ctx : Context) (b : binding)
    : M (value * option error) :=
  injector <- getInjector i ;;
  match getScopeFromBinding injector b with
  | inr err => ret (VInvalid, Some err)
  | inl scope => Scope_ResolveBinding scope ctx (bAddr b) (instanceCreator scope ctx b)
  end.

(** The loop over the bindings of a slice request; [n] is the slice built so far. *)
Fixpoint appendInstances (ctx : Context) (bindings : list binding) (n : value)
    : M (value * option error) :=
  match bindings with
  | [] => ret (n, None)
  | b :: rest =>
      res <- getScopedInstanceFromBinding ctx b ;;
      let '(r, err) := res in
      match err with
      | Some err => ret (VInvalid, Some err)
      | None => n <- Append n r ;; appendInstances ctx rest n
      end
  end.

Definition createProviderValue (t : rtype) (annotation : string) (optional : bool) : M value :=
  match t with
  | TFunc _ (bindingType :: _) => ret (VProvider t i bindingType annotation optional)
  | _ => panic "reflect: Out of non-func type"
  end.

(** The body of [getInstanceOfAnnotatedType]. *)
Definition resolveAnnotatedType (ctx : Context) (t : rtype) (annotation : string)
    (optional : bool) : M (value * option error) :=
  injector <- getInjector i ;;
  match t with
  | TSlice elem =>
      let bindings := findBindingsForAnnotatedType injector elem annotation in
      if 0 <? length bindings then
        appendInstances ctx bindings (VSlice t [])
      else if optional then
        ret (VSlice t [], None)
      else
        ret (VSlice t [], Some (newInjectionError elem annotation
                                  (errorString "did not found binding, expected at least one")))
  | _ =>
      let bindings := findBindingsForAnnotatedType injector t annotation in
      if 1 <? length bindings then
        ret (VInvalid, Some (newInjectionError t annotation
                               (errorString "found multiple bindings expected one")))
      else
        match bindings with
        | b :: _ => getScopedInstanceFromBinding ctx b
        | [] =>
            if isProviderType t then
              v <- createProviderValue t annotation optional ;; ret (v, None)
            else if bool_decide (t = invocationContextReflectType) then
              ret (ValueOfContext ctx, None)
            else if optional then
              ret (VInvalid, None)
            else
              ret (VInvalid, Some (newInjectionError t annotation
                                     (errorString "did not found binding, expected one")))
        end
  end.

End Resolution.

(** getInstanceOfAnnotatedType resolves a type request within the injector;
    [fuel] bounds the depth of the dependency graph that is followed. *)
Fixpoint getInstanceOfAnnotatedType (fuel : nat) (i : nat) (ctx : Context) (t : rtype)
    (annotation : string) (optional : bool) : M (value * option error) :=
  match fuel with
  | 0 => outOfFuel
  | S fuel => resolveAnnotatedType (getInstanceOfAnnotatedType fuel i) i ctx t annotation optional
  end.

(** The closure built by [createProviderValue], called with [args]. *)
Definition callProviderValue (fuel : nat) (v : value) (args : list value) : M (list value) :=
  match v with
  | VProvider t i bindingType annotation optional =>
      arg <- index args 0 ;;
      match arg with
      | VContext c =>
          res <- getInstanceOfAnnotatedType fuel i (Some c) bindingType annotation optional ;;
          let '(instance, err) := res in
          let instanceVal := if IsValid instance then instance else Zero bindingType in
          ret [instanceVal; VError err]
      | _ => panic "interface conversion: interface is not context.Context"
      end
  | _ => panic "reflect: call of reflect.Value.Call on non-func Value"
  end.

(** ** Configuration: options and annotations *)

Inductive Conditional :=
| environmentVariableConditional (name havingValue : string) (matchIfMissing : bool).

Definition Conditional_evaluate (c : Conditional) : bool :=
  match c with
  | environmentVariableConditional name havingValue matchIfMissing =>
      match LookupEnv name with
      | None => matchIfMissing
      | Some val => String.eqb val havingValue
      end
  end.

(** [As], [Named], [In] and [WithDestroy] build the annotations; [Module],
    [Provide], [RegisterScope] and [When] build the options. *)
Inductive Annotation :=
| asAnnotation (target : rtype)
| nameAnnotation (name : string)
| inAnnotation (scope : string)
| withDestroyAnnotation (destroyMethod : anyFunc U).

Inductive Option :=
| moduleOption (name : string) (options : list Option)
| provideOption (constructor : anyFunc U) (annotations : list Annotation)
| registerScopeOption (name : string) (scope : Scope)
| whenOption (condition : Conditional) (options : list Option).

Record configuration := mkConfiguration {
  cfgBindings : list binding;          (* the keys of map[*binding]bool, in insertion order *)
  cfgScopes : gmap string Scope;
}.

Definition withTypeof (t : rtype) (b : binding) : binding :=
  mkBinding (bAddr b) t (provider b) (providedType b) (annotatedWith b) (scope b) (destroyMethod b).
Definition withAnnotatedWith (name : string) (b : binding) : binding :=
  mkBinding (bAddr b) (typeof b) (provider b) (providedType b) name (scope b) (destroyMethod b).
Definition withScope (s : string) (b : binding) : binding :=
  mkBinding (bAddr b) (typeof b) (provider b) (providedType b) (annotatedWith b) s (destroyMethod b).
Definition withDestroyMethod (d : value → U → U) (b : binding) : binding :=
  mkBinding (bAddr b) (typeof b) (provider b) (providedType b) (annotatedWith b) (scope b) (Some d).

Definition Annotation_apply (a : Annotation) (b : binding) : binding * option error :=
  match a with
  | asAnnotation targetType =>
      if negb (AssignableTo (providedType b) targetType) then
        (b, Some (newInjectorConfigurationError (CannotAssign (providedType b) targetType) None))
      else (withTypeof targetType b, None)
  | nameAnnotation name => (withAnnotatedWith name b, None)
  | inAnnotation scope => (withScope scope b, None)
  | withDestroyAnnotation destroyMethod =>
      match destroyMethod with
      | anyFunction f =>
          if negb (length (fIn f) =? 1) || negb (bool_decide (fIn f !! 0 = Some (providedType b)))
             || negb (length (fOut f) =? 0) then
            (b, Some (newInjectorConfigurationError WithDestroyArgument None))
          else (withDestroyMethod (λ val u, snd (fCall f [val] u)) b, None)
      | _ => (b, Some (newInjectorConfigurationError WithDestroyArgument None))
      end
  end.

Fixpoint applyAnnotations (annotations : list Annotation) (b : binding) : binding * option error :=
  match annotations with
  | [] => (b, None)
  | a :: rest =>
      let '(b, err) := Annotation_apply a b in
      match err with
      | Some err =>
          (b, Some (newInjectorConfigurationError (ErrorConfiguringProvider (providedType b))
                      (Some err)))
      | None => applyAnnotations rest b
      end
  end.

(** [b := &binding{}]: a fresh address. *)
Definition newBindingAddr : M nat :=
  w <- getWorld ;;
  modifyWorld (setNextBinding (S (nextBinding w))) ;;;
  ret (nextBinding w).

Definition provideOption_apply (constructor : anyFunc U) (annotations : list Annotation)
    (cfg : configuration) : M (configuration * option error) :=
  match constructor with
  | anyNil => ret (cfg, Some (newInjectorConfigurationError CannotAcceptNilProvider None))
  | anyNonFunc _ => ret (cfg, Some (newInjectorConfigurationError ProviderShouldBeFunction None))
  | anyFunction fnc =>
      if (2 <? length (fOut fnc)) || (length (fOut fnc) =? 0) then
        ret (cfg, Some (newInjectorConfigurationError ExpectedInstanceAndOptionallyError None))
      else if (length (fOut fnc) =? 2)
              && negb (AssignableTo (default errorReflectType (fOut fnc !! 1)) errorReflectType) then
        ret (cfg, Some (newInjectorConfigurationError SecondReturnShouldBeError None))
      else
        addr <- newBindingAddr ;;
        let out0 := default errorReflectType (fOut fnc !! 0) in
        let b := mkBinding addr out0 fnc out0 EmptyString Singleton None in
        let '(b, err) := applyAnnotations annotations b in
        match err with
        | Some err => ret (cfg, Some err)
        | None => ret (mkConfiguration (cfgBindings cfg ++ [b]) (cfgScopes cfg), None)
        end
  end.

Fixpoint Option_apply (o : Option) (cfg : configuration) : M (configuration * option error) :=
  match o with
  | moduleOption name options =>
      (fix applyAll (opts : list Option) (cfg : configuration) :=
         match opts with
         | [] => ret (cfg, None)
         | opt :: rest =>
             res <- Option_apply opt cfg ;;
             let '(cfg, err) := res in
             match err with
             | Some err =>
                 ret (cfg, Some (newInjectorConfigurationError (ErrorInstallingModule name)
                                   (Some err)))
             | None => applyAll rest cfg
             end
         end) options cfg
  | provideOption constructor annotations => provideOption_apply constructor annotations cfg
  | registerScopeOption name scope =>
      ret (mkConfiguration (cfgBindings cfg) (<[name := scope]> (cfgScopes cfg)), None)
  | whenOption condition options =>
      if Conditional_evaluate condition then
        (fix applyAll (opts : list Option) (cfg : configuration) :=
           match opts with
           | [] => ret (cfg, None)
           | opt :: rest =>
               res <- Option_apply opt cfg ;;
               let '(cfg, err) := res in
               match err with
               | Some err => ret (cfg, Some err)
               | None => applyAll rest cfg
               end
           end) options cfg
      else ret (cfg, None)
  end.

Fixpoint applyOptions (options : list Option) (cfg : configuration)
    : M (configuration * option error) :=
  match options with
  | [] => ret (cfg, None)
  | o :: rest =>
      res <- Option_apply o cfg ;;
      let '(cfg, err) := res in
      match err with
      | Some err => ret (cfg, Some err)
      | None => applyOptions rest cfg
      end
  end.

(** ** Building and using an injector *)

(** A loop that stops at the first error. *)
Fixpoint forEach {A} (l : list A) (body : A → M (option error)) : M (option error) :=
  match l with
  | [] => ret None
  | x :: rest =>
      err <- body x ;;
      match err with
      | Some err => ret (Some err)
      | None => forEach rest body
      end
  end.

Definition eagerlyCreateSingletons (fuel : nat) (i : nat) : M (option error) :=
  injector <- getInjector i ;;
  forEach (mapIter _ (map_to_list (bindings injector))) (λ '(_, bindingsByAnnotation),
    forEach (mapIter _ (map_to_list bindingsByAnnotation)) (λ '(_, bindingList),
      forEach bindingList (λ b,
        if String.eqb (scope b) Singleton then
          res <- getScopedInstanceFromBinding (getInstanceOfAnnotatedType fuel i) i None b ;;
          match res.2 with
          | Some err => ret (Some (wrapError FailedToGetSingleton err))
          | None => ret None
          end
        else ret None))).

(** [injector.bindings[b.typeof][b.annotatedWith] = append(..., b)] *)
Definition addBinding (b : binding) (table : gmap rtype (gmap string (list binding)))
    : gmap rtype (gmap string (list binding)) :=
  let byAnnotation := default ∅ (table !! typeof b) in
  <[typeof b := <[annotatedWith b := default [] (byAnnotation !! annotatedWith b) ++ [b]]>
                  byAnnotation]> table.

Definition newInjectorAddr (injector : Injector) : M nat :=
  w <- getWorld ;;
  let i := fresh (dom (injectors w)) in
  modifyWorld (setInjectors <[i := injector]>) ;;;
  ret i.

(** The binding of [*Injector] that [NewInjector] adds; its provider is
    [func() *Injector { return injector }]. *)
Definition injectorBinding (injector addr : nat) : binding :=
  mkBinding addr injectorType
    (mkFunc [] [injectorType] (λ _ u, ([VInjector injector], u)))
    injectorType EmptyString Singleton None.

Definition NewInjector (fuel : nat) (options : list Option) : M (option nat * option error) :=
  res <- applyOptions options (mkConfiguration [] ∅) ;;
  let '(cfg, err) := res in
  match err with
  | Some err => ret (None, Some err)
  | None =>
      singletonScope' <- newSingletonScope ;;
      let scopes' :=
        <[PerLookUp := perLookUpScope]> (<[Singleton := singletonScope singletonScope']>
                                           (cfgScopes cfg)) in
      injector <- newInjectorAddr (mkInjector ∅ ∅ singletonScope') ;;
      addr <- newBindingAddr ;;
      let injectorBinding := injectorBinding injector addr in
      let table := foldl (λ table b, addBinding b table) ∅ (mapIter _ (cfgBindings cfg)) in
      let table := <[injectorType := {[ EmptyString := [injectorBinding] ]}]> table in
      modifyInjector injector (λ _, mkInjector table scopes' singletonScope') ;;;
      err <- eagerlyCreateSingletons fuel injector ;;
      match err with
      | Some err => ret (None, Some err)
      | None => ret (Some injector, None)
      end
  end.

(** Shutdown clear underlying singleton scope *)
Definition Shutdown (i : nat) : M unit :=
  injector <- getInjector i ;;
  singletonScope_Shutdown (injSingletonScope injector) ;;;
  modifyInjector i (λ injector, mkInjector ∅ ∅ (injSingletonScope injector)).

Definition Invoke (fuel : nat) (i : nat) (ctx : Context) (function : anyFunc U)
    : M (option error) :=
  match function with
  | anyNil => ret (Some (newInvalidInputError CantInvokeOnNil))
  | anyNonFunc ftype => ret (Some (newInvalidInputError (CantInvokeNonFunction ftype)))
  | anyFunction fvalue =>
      if (1 <? length (fOut fvalue))
         || ((length (fOut fvalue) =? 1)
             && negb (AssignableTo (default errorReflectType (fOut fvalue !! 0)) errorReflectType))
      then ret (Some (newInvalidInputError CantInvokeReturnType))
      else
        res <- callFunctionWithArgumentInstance (getInstanceOfAnnotatedType fuel i) ctx fvalue ;;
        let '(res, err) := res in
        match err with
        | Some err => ret (Some (wrapError FailedToCallInvocation err))
        | None =>
            if length (fOut fvalue) =? 1 then
              res0 <- index res 0 ;;
              invokationError <- interfaceError res0 ;;
              match invokationError with
              | Some invokationError =>
                  ret (Some (wrapError InvocationReturnedError invokationError))
              | None =>                      (* res[0].Interface().(error) on a nil interface *)
                  panic "interface conversion: interface is nil, not error"
              end
            else ret None
        end
  end.

End Injector.

(** ** Client programs of a registry

    The code that uses instance registries, as a tree of calls: what a
    constructor passed to [resolveBinding] does is itself such a program, so
    that constructors may resolve other bindings, register destruction
    callbacks, or run user code. *)

Section Client.
Context {U : Type}.

Inductive prog (A : Type) : Type :=
| Return (a : A)
| NewRegistry (k : nat → prog A)
| ResolveBinding (r binding : nat) (instanceCreator : prog (Instance * option error))
    (k : Instance * option error → prog A)
| RegisterCallback (r : nat) (destroyCallback : U → U) (k : prog A)
| ShutdownRegistry (r : nat) (k : prog A)
| UserCode (f : U → U) (k : prog A)
| ReadUser (k : U → prog A).

Fixpoint run {A : Type} (p : prog A) : M U A :=
  match p with
  | Return _ a => ret a
  | NewRegistry _ k => r <- newInstanceRegistry ;; run (k r)
  | ResolveBinding _ r binding instanceCreator k =>
      res <- resolveBinding r binding (run instanceCreator) ;; run (k res)
  | RegisterCallback _ r destroyCallback k =>
      registerDestructionCallback r destroyCallback ;;; run k
  | ShutdownRegistry _ r k => shutdown r ;;; run k
  | UserCode _ f k => userStep f ;;; run k
  | ReadUser _ k => w <- getWorld ;; run (k (user w))
  end.

End Client.

Arguments prog : clear implicits.
Arguments Return {U A}.
Arguments NewRegistry {U A}.
Arguments ResolveBinding {U A}.
Arguments RegisterCallback {U A}.
Arguments ShutdownRegistry {U A}.
Arguments UserCode {U A}.
Arguments ReadUser {U A}.

(** ** Vocabulary of the statements *)

Section Vocabulary.
Context {U : Type}.
Local Abbreviation M := (M U).
Local Abbreviation world := (world U).

(** The state of the lock of a binding in a registry, and the stored instance. *)
Definition lockOf (w : world) (r binding : nat) : option bool :=
  reg ← registries w !! r; instanceLock reg !! binding.

Definition storedOf (w : world) (r binding : nat) : option Instance :=
  reg ← registries w !! r; instances reg !! binding.

Definition callbacksOf (w : world) (r : nat) : option (list (U → U)) :=
  destroyMethods <$> registries w !! r.

(** A first [resolveBinding] of the binding has completed and stored [v]. *)
Definition sealed (w : world) (r binding : nat) (v : Instance) : Prop :=
  lockOf w r binding = Some false ∧ storedOf w r binding = Some v.

(** How many times a constructor was invoked for the binding in the registry. *)
Definition invocations (w : world) (r binding : nat) : nat :=
  length (filter (λ x, x = (r, binding)) (created w)).

(** Calling the closures of a list one after the other, first to last. *)
Definition invokeAll (callbacks : list (U → U)) (u : U) : U :=
  foldl (λ u callback, callback u) u callbacks.

(** Registering callbacks one after the other, first to last. *)
Fixpoint registerAll (r : nat) (callbacks : list (U → U)) : M unit :=
  match callbacks with
  | [] => ret tt
  | callback :: rest => registerDestructionCallback r callback ;;; registerAll r rest
  end.

(** The log of invocations agrees with the locks: a constructor has been
    invoked exactly for the bindings that have a lock. *)
Definition consistent (w : world) : Prop :=
  ∀ r binding,
    invocations w r binding = match lockOf w r binding with Some _ => 1 | None => 0 end.

(** What a registry never loses: locks, and completed constructions. *)
Definition extends (w w' : world) : Prop :=
  ∀ r binding,
    (is_Some (lockOf w r binding) → is_Some (lockOf w' r binding)) ∧
    (∀ v, sealed w r binding v → sealed w' r binding v).

(** The empty world. *)
Definition emptyWorld (u : U) : world := mkWorld ∅ ∅ 0 u [].

End Vocabulary.

(** * Statements and proofs *)

(** ** More vocabulary *)

Section ActiveScopes.
(** No registry is found in the context under the key: the context is nil,
    or it carries no registry pointer under that key. *)
Definition scopeNotActive (ctx : Context) (key : ctxKey) : Prop :=
  match ctx with
  | None => True
  | Some c => ctxRegistry c key = None
  end.

End ActiveScopes.

Section ConstructionSteps.
Context {U : Type}.
Local Abbreviation M := (M U).
Local Abbreviation world := (world U).

(** The two state changes of a first [resolveBinding]: before the
    constructor runs (lock created and taken, invocation logged) and after
    it (instance stored, lock released). *)
Definition beginConstruction (r binding : nat) (w : world) : world :=
  setCreated (cons (r, binding)) (setRegistries (alter (setInstanceLock <[binding := true]>) r) w).

Definition endConstruction (r binding : nat) (v : Instance) (w : world) : world :=
  setRegistries (alter (setInstanceLock <[binding := false]>) r)
    (setRegistries (alter (setInstances <[binding := v]>) r) w).

(** What every operation on registries guarantees between the world it
    starts in and the world it ends in. *)
Definition steady (w w' : world) : Prop :=
  extends w w' ∧ (consistent w → consistent w') ∧ injectors w' = injectors w.

End ConstructionSteps.

Section OrderlyComputations.
Context {U : Type}.
(** A computation that keeps the registries steady, from any world. *)
Definition orderly {A} (m : M U A) : Prop := ∀ w, steady w (m w).2.
End OrderlyComputations.

Section ExampleValue.
(** A value for the examples. *)
Definition demoValue : value := VData (TNamed "T") 1.

End ExampleValue.

Section BindingTables.
Context {U : Type}.
(** A binding of the binding table of an injector. *)
Definition bindingIn (injector : Injector U) (b : binding U) : Prop :=
  ∃ t byAnnotation annotation bindingList,
    bindings injector !! t = Some byAnnotation ∧
    byAnnotation !! annotation = Some bindingList ∧
    b ∈ bindingList.
End BindingTables.

Section CollectionRequests.
Context {U : Type}.
(** Resolving the bindings of a list one after the other, as the
    description of collection requests has it: the instances obtained, in
    the order of the bindings, up to the first failure if there is one. *)
Fixpoint resolveEach (resolve : binding U → M U (value * option error))
    (bindings : list (binding U)) : M U (list value * option error) :=
  match bindings with
  | [] => ret ([], None)
  | b :: rest =>
      res <- resolve b ;;
      let '(v, err) := res in
      match err with
      | Some err => ret ([], Some err)
      | None =>
          res <- resolveEach resolve rest ;;
          let '(vs, err) := res in ret (v :: vs, err)
      end
  end.
End CollectionRequests.

Section Growth.
Context {U : Type}.
Local Abbreviation world := (world U).

(** What every operation of the library guarantees, also those that make
    or shut down injectors. *)
Definition grows (w w' : world) : Prop :=
  extends w w' ∧ (consistent w → consistent w').

(** Since [w], the registries have only grown and the injector [i] has not
    been written to: it has not been shut down. *)
Definition undisturbed (i : nat) (w w' : world) : Prop :=
  grows w w' ∧ injectors w' !! i = injectors w !! i.

(** A binding of a binding table. *)
Definition tableIn (table : gmap rtype (gmap string (list (binding U)))) (b : binding U) : Prop :=
  ∃ t byAnnotation annotation bindingList,
    table !! t = Some byAnnotation ∧
    byAnnotation !! annotation = Some bindingList ∧
    b ∈ bindingList.

(** The addresses of the bindings of a configuration are below [n]. *)
Definition addrsBelow (n : nat) (bs : list (binding U)) : Prop :=
  Forall (λ b, bAddr b < n) bs.

(** Applying options allocates binding addresses and changes nothing else. *)
Definition allocatesOnly (w w' : world) : Prop :=
  registries w' = registries w ∧ injectors w' = injectors w ∧
  created w' = created w ∧ user w' = user w ∧ nextBinding w ≤ nextBinding w'.

End Growth.

Section Configuring.
Context {U : Type}.
(** What applying options guarantees: only addresses are allocated, and
    the bindings added to the configuration have fresh addresses. *)
Definition configures (f : configuration (U:=U) → M U (configuration (U:=U) * option error)) : Prop :=
  ∀ cfg w,
    allocatesOnly w (f cfg w).2 ∧
    (∀ cfg' e w', f cfg w = (Ok (cfg', e), w') →
       addrsBelow (nextBinding w) (cfgBindings cfg) →
       addrsBelow (nextBinding w') (cfgBindings cfg')).

End Configuring.

Section BuiltInjector.
Context {U : Type}.
Variable mapIter : ∀ A : Type, list A → list A.

(** The binding table and the scopes that [NewInjector] builds from a
    configuration, and the world in which it starts to create the singletons. *)
Definition builtTable (cfg : configuration (U:=U)) (i addr : nat)
    : gmap rtype (gmap string (list (binding U))) :=
  <[injectorType := {[ EmptyString := [injectorBinding i addr] ]}]>
    (foldl (λ table b, addBinding b table) ∅ (mapIter _ (cfgBindings cfg))).

Definition builtScopes (cfg : configuration (U:=U)) (r : nat) : gmap string Scope :=
  <[PerLookUp := perLookUpScope]> (<[Singleton := singletonScope r]> (cfgScopes cfg)).

Definition builtWorld (cfg : configuration (U:=U)) (w0 : world U) : world U :=
  let r := fresh (dom (registries w0)) in
  let i := fresh (dom (injectors w0)) in
  mkWorld (<[r := emptyRegistry]> (registries w0))
    (alter (λ _, mkInjector (builtTable cfg i (nextBinding w0)) (builtScopes cfg r) r) i
       (<[i := mkInjector ∅ ∅ r]> (injectors w0)))
    (S (nextBinding w0)) (user w0) (created w0).
End BuiltInjector.

Section EagerLoop.
Context {U : Type}.
Variable AssignableTo : rtype → rtype → bool.
(** One iteration of the innermost loop of [eagerlyCreateSingletons]. *)
Definition eagerStep (fuel i : nat) (b : binding U) : M U (option error) :=
  if String.eqb (scope b) Singleton then
    res <- getScopedInstanceFromBinding AssignableTo
             (getInstanceOfAnnotatedType AssignableTo fuel i) i None b ;;
    match res.2 with
    | Some err => ret (Some (wrapError FailedToGetSingleton err))
    | None => ret None
    end
  else ret None.

End EagerLoop.

Section InjectorInstance.
Context {U : Type}.
(** The only instance ever stored for the binding at address [a0] in the
    registry [r0] is the injector [i]. *)
Definition storesInjector (i r0 a0 : nat) (w : world U) : Prop :=
  ∀ v, storedOf w r0 a0 = Some v → v = VInjector i.

(** Steady, and keeping [storesInjector] as long as the injector is [inj0]. *)
Definition keepsInjector (i r0 a0 : nat) (inj0 : Injector U) (w w' : world U) : Prop :=
  steady w w' ∧
  (injectors w !! i = Some inj0 → storesInjector i r0 a0 w → storesInjector i r0 a0 w').
End InjectorInstance.

Section Calls.
Context {U : Type}.
Variable AssignableTo : rtype → rtype → bool.
Variable LookupEnv : string → option string.
Variable mapIter : ∀ A : Type, list A → list A.

(** The calls a program makes to the library, and to its own code. *)
Inductive apiCall :=
| callNewInjector (fuel : nat) (options : list (Option (U:=U)))
| callInvoke (fuel : nat) (injector : nat) (ctx : Context) (function : anyFunc U)
| callShutdown (injector : nat)
| callWithContextualScopeEnabled (ctx : Context) (key : ctxKey)
| callShutdownContextualScope (ctx : Context) (key : ctxKey)
| callProvider (fuel : nat) (provider : value) (args : list value)
| callUserCode (f : U → U).

(** The world after a call. *)
Definition afterCall (w : world U) (c : apiCall) : world U :=
  match c with
  | callNewInjector fuel options => (NewInjector AssignableTo LookupEnv mapIter fuel options w).2
  | callInvoke fuel injector ctx function => (Invoke AssignableTo fuel injector ctx function w).2
  | callShutdown injector => (Shutdown injector w).2
  | callWithContextualScopeEnabled ctx key => (WithContextualScopeEnabled ctx key w).2
  | callShutdownContextualScope ctx key => (ShutdownContextualScope ctx key w).2
  | callProvider fuel provider args => (callProviderValue AssignableTo fuel provider args w).2
  | callUserCode f => setUser f w
  end.

Definition afterCalls (w : world U) (calls : list apiCall) : world U :=
  foldl afterCall w calls.

(** The call is not the shutdown of the injector [i]. *)
Definition keepsAlive (i : nat) (c : apiCall) : Prop :=
  match c with
  | callShutdown injector => injector ≠ i
  | _ => True
  end.
End Calls.

Section ExampleData.
(** ** Data of the examples: the user state is a counter *)

Definition demoAssignable : rtype → rtype → bool := λ _ _, true.
Definition demoEnv : string → option string := λ _, None.
Definition demoIter : ∀ A : Type, list A → list A := λ _ l, l.

Definition tParent : rtype := TPtr (TNamed "goinject.Parent").
Definition tChild : rtype := TPtr (TNamed "goinject.Child").
Definition tShape : rtype := TNamed "goinject.Shape".
Definition tRectangle : rtype := TPtr (TNamed "goinject.Rectangle").
Definition tSquare : rtype := TPtr (TNamed "goinject.Square").

(** [func() *Parent], counting its calls *)
Definition newParent : func nat :=
  mkFunc [] [tParent] (λ _ u, ([VData tParent (S u)], S u)).
(** [func(parent *Parent) *Child] *)
Definition newChild : func nat :=
  mkFunc [tParent] [tChild] (λ _ u, ([VData tChild (S u)], S u)).
Definition newRectangle : func nat :=
  mkFunc [] [tRectangle] (λ _ u, ([VData tRectangle 1], u)).
Definition newSquare : func nat :=
  mkFunc [] [tSquare] (λ _ u, ([VData tSquare 2], u)).
(** a provider of a Parent, with an error result, that fails *)
Definition failingParent : func nat :=
  mkFunc [] [tParent; errorReflectType]
    (λ _ u, ([VData tParent 0; VError (Some (userError (TNamed "*errors.errorString") 1))], S u)).

Definition familyOptions : list (Option (U:=nat)) :=
  [provideOption (anyFunction newParent) []; provideOption (anyFunction newChild) []].

Definition shapeOptions : list (Option (U:=nat)) :=
  [provideOption (anyFunction newRectangle) [asAnnotation tShape];
   provideOption (anyFunction newSquare) [asAnnotation tShape]].

Definition failingOptions : list (Option (U:=nat)) :=
  [provideOption (anyFunction failingParent) [inAnnotation PerLookUp]].

Definition demoNewInjector (options : list (Option (U:=nat)))
    : outcome (option nat * option error) * world nat :=
  NewInjector demoAssignable demoEnv demoIter 5 options (emptyWorld 0).

Definition demoInjector (w : world nat) : Injector nat :=
  default (mkInjector ∅ ∅ 0) (injectors w !! 0).
End ExampleData.

(** Induction on options, through the lists of options of modules. *)
Section OptionInduction.
Context {U : Type}.
Variable P : Option (U:=U) → Prop.
Hypothesis Hmodule : ∀ name options, Forall P options → P (moduleOption name options).
Hypothesis Hprovide : ∀ constructor annotations, P (provideOption constructor annotations).
Hypothesis Hscope : ∀ name scope, P (registerScopeOption name scope).
Hypothesis Hwhen : ∀ condition options, Forall P options → P (whenOption condition options).

Fixpoint Option_nested_ind (o : Option) : P o :=
  match o with
  | moduleOption name options =>
      Hmodule name options
        ((fix all (l : list Option) : Forall P l :=
            match l with
            | [] => Forall_nil_2 P
            | x :: l' => Forall_cons_2 P x l' (Option_nested_ind x) (all l')
            end) options)
  | provideOption constructor annotations => Hprovide constructor annotations
  | registerScopeOption name scope => Hscope name scope
  | whenOption condition options =>
      Hwhen condition options
        ((fix all (l : list Option) : Forall P l :=
            match l with
            | [] => Forall_nil_2 P
            | x :: l' => Forall_cons_2 P x l' (Option_nested_ind x) (all l')
            end) options)
  end.
End OptionInduction.

(** ** Facts and theorems *)

(** ** Computations *)

Section Computations.
Context {U : Type}.
Local Abbreviation M := (M U).
Local Abbreviation world := (world U).

Lemma bind_Ok {A B} (m : M A) (f : A → M B) w a w' :
  m w = (Ok a, w') → bind m f w = f a w'.
Proof. unfold bind. by intros ->. Qed.

Lemma bind_Abort {A B} (m : M A) (f : A → M B) w r w' :
  m w = (Abort r, w') → bind m f w = (Abort r, w').
Proof. unfold bind. by intros ->. Qed.

End Computations.

(** ** The instance registry *)

Section RegistryFacts.
Context {U : Type}.
Local Abbreviation M := (M U).
Local Abbreviation world := (world U).

Lemma invokeAll_app (l1 l2 : list (U → U)) u :
  invokeAll (l1 ++ l2) u = invokeAll l2 (invokeAll l1 u).
Proof. apply foldl_app. Qed.

Lemma shutdownLoop_spec (methods : list (U → U)) n (w : world) :
  n ≤ length methods →
  shutdownLoop methods n w = (Ok tt, setUser (invokeAll (rev (take n methods))) w).
Proof.
  revert w. induction n as [|n IH]; intros w Hn; simpl.
  - by destruct w.
  - destruct (lookup_lt_is_Some_2 methods n) as [d Hd]; [lia|].
    rewrite Hd. unfold userStep, modifyWorld. rewrite (bind_Ok _ _ _ tt (setUser d w)); [|done].
    rewrite IH by lia. f_equal.
    rewrite (take_S_r _ _ _ Hd), rev_app_distr. simpl.
    by destruct w.
Qed.

Lemma shutdown_spec (w : world) r reg :
  registries w !! r = Some reg →
  shutdown r w =
    (Ok tt, setRegistries (alter (setDestroyMethods (λ _, [])) r)
              (setUser (invokeAll (rev (destroyMethods reg))) w)).
Proof.
  intros Hr. unfold shutdown, getRegistry.
  rewrite (bind_Ok _ _ _ reg w) by by rewrite Hr.
  erewrite bind_Ok; [|by apply shutdownLoop_spec].
  by rewrite firstn_all.
Qed.

Lemma registerDestructionCallback_spec (w : world) r reg cb :
  registries w !! r = Some reg →
  registerDestructionCallback r cb w =
    (Ok tt, setRegistries (alter (setDestroyMethods (λ methods, methods ++ [cb])) r) w).
Proof.
  intros Hr. unfold registerDestructionCallback, getRegistry.
  by rewrite (bind_Ok _ _ _ reg w) by by rewrite Hr.
Qed.

Lemma registerAll_spec (w : world) r reg cbs :
  registries w !! r = Some reg →
  registerAll r cbs w =
    (Ok tt, setRegistries (alter (setDestroyMethods (λ methods, methods ++ cbs)) r) w).
Proof.
  revert w reg. induction cbs as [|cb cbs IH]; intros w reg Hr; simpl.
  - unfold ret. f_equal. destruct w as [regs ? ? ? ?]; unfold setRegistries; simpl in *. f_equal.
    apply map_eq; intros k. rewrite lookup_alter. case_decide; [|done]. subst.
    rewrite Hr. simpl. destruct reg; unfold setDestroyMethods; simpl. by rewrite app_nil_r.
  - erewrite bind_Ok; [|by eapply registerDestructionCallback_spec].
    erewrite IH; [|simpl; rewrite lookup_alter, decide_True by done; by rewrite Hr].
    f_equal. destruct w as [regs ? ? ? ?]; unfold setRegistries; simpl in *. f_equal.
    apply map_eq; intros k. rewrite !lookup_alter. case_decide; [|done]. subst.
    rewrite Hr. simpl. destruct reg; unfold setDestroyMethods; simpl.
    rewrite decide_True by done. simpl. by rewrite <-app_assoc.
Qed.

End RegistryFacts.

Section RegistryTheorems.
Context {U : Type}.
Local Abbreviation M := (M U).
Local Abbreviation world := (world U).

(** C5: the callbacks registered on a fresh registry, in the order
    [c1; ...; cn], are all registered, and one [shutdown] calls exactly these,
    each once, last registered first: its effect on the user state is that of
    calling [cn], ..., [c1] in this order; the list of callbacks is then empty. *)
Theorem shutdown_reverse_registration_order (w : world) (r : nat) (reg : instanceRegistry U)
    (callbacks : list (U → U)) :
  registries w !! r = Some reg →
  destroyMethods reg = [] →
  ∃ w1 w2,
    registerAll r callbacks w = (Ok tt, w1) ∧
    callbacksOf w1 r = Some callbacks ∧
    shutdown r w1 = (Ok tt, w2) ∧
    user w2 = invokeAll (rev callbacks) (user w) ∧
    callbacksOf w2 r = Some [].
Proof.
  intros Hr Hempty.
  eexists _, _. split; [by eapply registerAll_spec|].
  assert (registries
            (setRegistries (alter (setDestroyMethods (λ methods, methods ++ callbacks)) r) w) !! r
          = Some (setDestroyMethods (λ methods, methods ++ callbacks) reg)) as Hr1.
  { simpl. by rewrite lookup_alter, decide_True, Hr by done. }
  split; [|split; [by eapply shutdown_spec|split]].
  - unfold callbacksOf. rewrite Hr1. simpl. by rewrite Hempty.
  - simpl. by rewrite Hempty.
  - unfold callbacksOf. simpl. by rewrite !lookup_alter, !decide_True, Hr by done.
Qed.

(** C6, amended: [shutdown] empties the list of callbacks and leaves the
    locks and the stored instances of the registry as they are; a second
    [shutdown] then calls no callback: it changes nothing at all. *)
Theorem shutdown_clears_callbacks_only (w : world) (r : nat) (reg : instanceRegistry U) :
  registries w !! r = Some reg →
  ∃ w1,
    shutdown r w = (Ok tt, w1) ∧
    registries w1 !! r = Some (mkRegistry (instanceLock reg) (instances reg) []) ∧
    shutdown r w1 = (Ok tt, w1).
Proof.
  intros Hr. eexists. split; [by eapply shutdown_spec|].
  assert (registries
            (setRegistries (alter (setDestroyMethods (λ _, [])) r)
               (setUser (invokeAll (rev (destroyMethods reg))) w)) !! r
          = Some (mkRegistry (instanceLock reg) (instances reg) [])) as Hr1.
  { simpl. by rewrite lookup_alter, decide_True, Hr by done. }
  split; [done|].
  erewrite shutdown_spec by exact Hr1. f_equal.
  destruct w as [regs injs nb u cr]; unfold setRegistries, setUser; simpl in *. f_equal.
  apply map_eq; intros k. rewrite !lookup_alter. case_decide; [|done]. subst.
  rewrite decide_True by done. by destruct (regs !! k).
Qed.

(** C3, amended: when no registry is found under the key of a contextual
    scope, [ResolveBinding] returns the "scope not active" error at once,
    without calling the constructor (whatever it is, the world is unchanged);
    [RegisterDestructionCallback], which has no error result, returns
    normally on a context that is not nil, and stores nothing. *)
Theorem contextualScope_not_active (key : ctxKey) (ctx : Context) (binding : nat)
    (instanceCreator : M (Instance * option error)) (destroyCallback : U → U) (w : world) :
  scopeNotActive ctx key →
  contextualScope_ResolveBinding key ctx binding instanceCreator w
    = (Ok (VInvalid, Some contextScopedNotActiveError), w) ∧
  (ctx ≠ None → contextualScope_RegisterDestructionCallback key ctx destroyCallback w = (Ok tt, w)).
Proof.
  intros Hctx. destruct ctx as [c|]; simpl in *.
  - unfold contextualScope_ResolveBinding, contextualScope_RegisterDestructionCallback.
    by rewrite Hctx.
  - done.
Qed.

End RegistryTheorems.

(** Three callbacks that log their number: shutdown logs 3, 2, 1. *)
Lemma shutdown_reverse_registration_order_witness :
  let w : world (list nat) := mkWorld {[0 := emptyRegistry]} ∅ 0 [] [] in
  let callbacks : list (list nat → list nat) := [λ t, t ++ [1]; λ t, t ++ [2]; λ t, t ++ [3]] in
  registries w !! 0 = Some emptyRegistry ∧
  destroyMethods (@emptyRegistry (list nat)) = [] ∧
  ∃ w1 w2,
    registerAll 0 callbacks w = (Ok tt, w1) ∧
    callbacksOf w1 0 = Some callbacks ∧
    shutdown 0 w1 = (Ok tt, w2) ∧
    user w2 = [3; 2; 1] ∧
    callbacksOf w2 0 = Some [].
Proof.
  intros w callbacks.
  split; [reflexivity|]. split; [reflexivity|].
  exact (shutdown_reverse_registration_order w 0 emptyRegistry callbacks eq_refl eq_refl).
Defined.

Lemma shutdown_clears_callbacks_only_witness :
  let reg : instanceRegistry nat :=
    mkRegistry {[7 := false]} {[7 := VData (TNamed "T") 1]} [S] in
  let w : world nat := mkWorld {[0 := reg]} ∅ 0 0 [(0, 7)] in
  registries w !! 0 = Some reg ∧
  ∃ w1,
    shutdown 0 w = (Ok tt, w1) ∧
    registries w1 !! 0 = Some (mkRegistry (instanceLock reg) (instances reg) []) ∧
    shutdown 0 w1 = (Ok tt, w1).
Proof.
  intros reg w. split; [reflexivity|].
  exact (shutdown_clears_callbacks_only w 0 reg eq_refl).
Defined.

(** C6 as stated fails: a registry is made, a binding is resolved in it and
    a callback registered; after [shutdown] the instance is still stored. *)
Lemma shutdown_empties_value_map_counterexample :
  let v := VData (TNamed "T") 1 in
  let client : prog nat unit :=
    NewRegistry (λ r,
      ResolveBinding r 7 (RegisterCallback r S (Return (v, None))) (λ _,
        ShutdownRegistry r (Return tt))) in
  let w := (run client (emptyWorld 0)).2 in
  (run client (emptyWorld 0)).1 = Ok tt ∧
  user w = 1 ∧
  callbacksOf w 0 = Some [] ∧
  storedOf w 0 7 = Some v ∧
  ∃ reg, registries w !! 0 = Some reg ∧ instances reg ≠ ∅.
Proof.
  vm_compute. repeat split; try reflexivity.
  eexists. split; [reflexivity|]. discriminate.
Qed.

Lemma contextualScope_not_active_witness :
  let w : world nat := emptyWorld 0 in
  scopeNotActive (Some Background) (keyOf 0) ∧
  contextualScope_ResolveBinding (keyOf 0) (Some Background) 7 (ret (VData (TNamed "T") 1, None)) w
    = (Ok (VInvalid, Some contextScopedNotActiveError), w) ∧
  (Some Background ≠ None →
   contextualScope_RegisterDestructionCallback (keyOf 0) (Some Background) S w = (Ok tt, w)).
Proof.
  intros w. split; [reflexivity|].
  apply (contextualScope_not_active (keyOf 0) (Some Background) 7 _ S w). reflexivity.
Defined.

(** C3 as stated fails for [RegisterDestructionCallback]: on a context
    without registry it returns normally, and on the nil context it panics;
    in neither case does it return the "scope not active" error. *)
Lemma contextualScope_RegisterDestructionCallback_counterexample :
  let w : world nat := emptyWorld 0 in
  contextualScope_RegisterDestructionCallback (keyOf 0) (Some Background) S w = (Ok tt, w) ∧
  contextualScope_RegisterDestructionCallback (keyOf 0) None S w
    = (Abort (Panic "invalid memory address or nil pointer dereference"), w) ∧
  scopeNotActive (Some Background) (keyOf 0) ∧ scopeNotActive None (keyOf 0).
Proof. by repeat split. Qed.

Section Steady.
Context {U : Type}.
Local Abbreviation M := (M U).
Local Abbreviation world := (world U).
Implicit Types w : world.

Lemma extends_refl w : extends w w.
Proof. by intros r b. Qed.

Lemma extends_trans w1 w2 w3 : extends w1 w2 → extends w2 w3 → extends w1 w3.
Proof.
  intros H12 H23 r b. destruct (H12 r b) as [Ha Hb], (H23 r b) as [Hc Hd]. split; auto.
Qed.

Lemma steady_refl w : steady w w.
Proof. split; [apply extends_refl|]. by split. Qed.

Lemma steady_trans w1 w2 w3 : steady w1 w2 → steady w2 w3 → steady w1 w3.
Proof.
  intros (Ha & Hb & Hc) (Hd & He & Hf). split; [by eapply extends_trans|].
  split; [auto|congruence].
Qed.

(** Changes that do not touch locks, instances or the log. *)
Lemma steady_same w w' :
  (∀ r b, lockOf w' r b = lockOf w r b) →
  (∀ r b, storedOf w' r b = storedOf w r b) →
  created w' = created w →
  injectors w' = injectors w →
  steady w w'.
Proof.
  intros Hl Hs Hc Hi. split; [|split; [|done]].
  - intros r b. unfold sealed. rewrite Hl. split; [done|]. intros v. by rewrite Hs.
  - intros Hcons r b. unfold invocations. rewrite Hc, Hl. apply Hcons.
Qed.

Lemma steady_setUser w f : steady w (setUser f w).
Proof. by apply steady_same. Qed.

Lemma lockOf_alter_other w r f r' b :
  (∀ reg, instanceLock (f reg) = instanceLock reg) →
  lockOf (setRegistries (alter f r) w) r' b = lockOf w r' b.
Proof.
  intros Hf. unfold lockOf. simpl. rewrite lookup_alter.
  case_decide; [|done]. subst. destruct (registries w !! r'); simpl; [|done]. by rewrite Hf.
Qed.

Lemma storedOf_alter_other w r f r' b :
  (∀ reg, instances (f reg) = instances reg) →
  storedOf (setRegistries (alter f r) w) r' b = storedOf w r' b.
Proof.
  intros Hf. unfold storedOf. simpl. rewrite lookup_alter.
  case_decide; [|done]. subst. destruct (registries w !! r'); simpl; [|done]. by rewrite Hf.
Qed.

Lemma lockOf_setInstanceLock w r b l r' b' :
  lockOf (setRegistries (alter (setInstanceLock <[b := l]>) r) w) r' b' =
    if decide (r = r' ∧ b = b' ∧ is_Some (registries w !! r)) then Some l else lockOf w r' b'.
Proof.
  unfold lockOf. simpl. rewrite lookup_alter.
  destruct (decide (r = r')) as [->|Hr].
  - destruct (registries w !! r') as [reg|] eqn:Hreg; simpl.
    + destruct (decide (b = b')) as [->|Hb].
      * rewrite lookup_insert_eq. rewrite decide_True; [done|]. eauto.
      * rewrite lookup_insert_ne by done. rewrite decide_False; [done|]. tauto.
    + rewrite decide_False; [done|]. intros (_ & _ & []). done.
  - rewrite decide_False; [done|]. tauto.
Qed.

Lemma storedOf_setInstances w r b v r' b' :
  storedOf (setRegistries (alter (setInstances <[b := v]>) r) w) r' b' =
    if decide (r = r' ∧ b = b' ∧ is_Some (registries w !! r)) then Some v else storedOf w r' b'.
Proof.
  unfold storedOf. simpl. rewrite lookup_alter.
  destruct (decide (r = r')) as [->|Hr].
  - destruct (registries w !! r') as [reg|] eqn:Hreg; simpl.
    + destruct (decide (b = b')) as [->|Hb].
      * rewrite lookup_insert_eq. rewrite decide_True; [done|]. eauto.
      * rewrite lookup_insert_ne by done. rewrite decide_False; [done|]. tauto.
    + rewrite decide_False; [done|]. intros (_ & _ & []). done.
  - rewrite decide_False; [done|]. tauto.
Qed.

Lemma lockOf_is_Some_registry w r b : is_Some (lockOf w r b) → is_Some (registries w !! r).
Proof. unfold lockOf. destruct (registries w !! r); [eauto|]. by intros []. Qed.

Lemma lockOf_beginConstruction w r b r' b' :
  lockOf (beginConstruction r b w) r' b' =
    if decide (r = r' ∧ b = b' ∧ is_Some (registries w !! r)) then Some true else lockOf w r' b'.
Proof. unfold beginConstruction. apply lockOf_setInstanceLock. Qed.

Lemma storedOf_beginConstruction w r b r' b' :
  storedOf (beginConstruction r b w) r' b' = storedOf w r' b'.
Proof. unfold beginConstruction. by apply storedOf_alter_other. Qed.

Lemma lockOf_endConstruction w r b v r' b' :
  lockOf (endConstruction r b v w) r' b' =
    if decide (r = r' ∧ b = b' ∧ is_Some (registries w !! r)) then Some false else lockOf w r' b'.
Proof.
  unfold endConstruction. rewrite lockOf_setInstanceLock.
  rewrite (lockOf_alter_other _ r (setInstances <[b:=v]>)) by done.
  assert (is_Some (registries (setRegistries (alter (setInstances <[b:=v]>) r) w) !! r)
          ↔ is_Some (registries w !! r)) as Hiff.
  { simpl. rewrite lookup_alter, decide_True by done. apply fmap_is_Some. }
  repeat case_decide; tauto.
Qed.

Lemma storedOf_endConstruction w r b v r' b' :
  storedOf (endConstruction r b v w) r' b' =
    if decide (r = r' ∧ b = b' ∧ is_Some (registries w !! r)) then Some v else storedOf w r' b'.
Proof.
  unfold endConstruction. rewrite (storedOf_alter_other _ _ _ _ _) by done.
  apply storedOf_setInstances.
Qed.

Lemma invocations_cons w r b r' b' :
  invocations (setCreated (cons (r, b)) w) r' b' =
    (if decide (r = r' ∧ b = b') then 1 else 0) + invocations w r' b'.
Proof.
  unfold invocations. simpl. rewrite filter_cons.
  destruct (decide ((r, b) = (r', b'))) as [Heq|Hne]; simplify_eq.
  - by rewrite decide_True.
  - rewrite decide_False; [done|]. intros [-> ->]. done.
Qed.

Lemma steady_beginConstruction w r b :
  is_Some (registries w !! r) → lockOf w r b = None → steady w (beginConstruction r b w).
Proof.
  intros Hreg Hlock. split; [|split; [|done]].
  - intros r' b'. unfold sealed.
    rewrite lockOf_beginConstruction, storedOf_beginConstruction.
    case_decide as Hd; [|done]. destruct Hd as (-> & -> & _).
    rewrite Hlock. split; [eauto|]. intros v [? _]. done.
  - intros Hcons r' b'. rewrite lockOf_beginConstruction. unfold beginConstruction.
    rewrite invocations_cons.
    assert (invocations (setRegistries (alter (setInstanceLock <[b:=true]>) r) w) r' b'
            = invocations w r' b') as -> by done.
    rewrite Hcons.
    destruct (decide (r = r' ∧ b = b')) as [[-> ->]|Hne].
    + rewrite decide_True by done. by rewrite Hlock.
    + rewrite decide_False by tauto. done.
Qed.

Lemma steady_endConstruction w0 w r b v :
  lockOf w0 r b = None → is_Some (lockOf w r b) →
  steady w0 w → steady w0 (endConstruction r b v w).
Proof.
  intros Hlock0 Hlock (Hext & Hcons & Hinj). split; [|split; [|done]].
  - intros r' b'. destruct (Hext r' b') as [Hp Hs]. unfold sealed.
    rewrite lockOf_endConstruction, storedOf_endConstruction.
    case_decide as Hd.
    + destruct Hd as (-> & -> & _). rewrite Hlock0. split; [eauto|]. intros v' [? _]. done.
    + done.
  - intros Hc r' b'. specialize (Hcons Hc r' b').
    rewrite lockOf_endConstruction.
    assert (invocations (endConstruction r b v w) r' b' = invocations w r' b') as -> by done.
    rewrite Hcons. case_decide as Hd; [|done]. destruct Hd as (-> & -> & _).
    by destruct Hlock as [l ->].
Qed.

Lemma sealed_endConstruction w r b v :
  is_Some (registries w !! r) → sealed (endConstruction r b v w) r b v.
Proof.
  intros Hreg. unfold sealed.
  rewrite lockOf_endConstruction, storedOf_endConstruction.
  by rewrite !decide_True by done.
Qed.

End Steady.

Section Orderly.
Context {U : Type}.
Local Abbreviation M := (M U).
Local Abbreviation world := (world U).
Implicit Types w : world.

Lemma resolveBinding_unfold w r b (c : M (Instance * option error)) :
  resolveBinding r b c w =
    match registries w !! r with
    | None => (Abort (Panic "invalid memory address or nil pointer dereference"), w)
    | Some reg =>
        match instanceLock reg !! b with
        | Some true => (Abort Deadlock, w)
        | Some false =>
            match instances reg !! b with
            | Some v => (Ok (v, None), w)
            | None =>
                (Abort (Panic "interface conversion: interface is nil, not goinject.Instance"), w)
            end
        | None =>
            match c (beginConstruction r b w) with
            | (Ok (v, e), w2) => (Ok (v, e), endConstruction r b v w2)
            | (Abort a, w2) => (Abort a, w2)
            end
        end
    end.
Proof.
  unfold resolveBinding, getRegistry, bind at 1.
  destruct (registries w !! r) as [reg|]; [|done].
  destruct (instanceLock reg !! b) as [[]|]; [done| |].
  - by destruct (instances reg !! b).
  - unfold bind, modifyRegistry, logCreation, modifyWorld, ret. simpl.
    fold (beginConstruction r b w).
    by destruct (c (beginConstruction r b w)) as [[[v e]|a] w2].
Qed.

Lemma sealed_lookup w r b v :
  sealed w r b v ↔
  ∃ reg, registries w !! r = Some reg ∧ instanceLock reg !! b = Some false
         ∧ instances reg !! b = Some v.
Proof.
  unfold sealed, lockOf, storedOf. destruct (registries w !! r) as [reg|]; simpl.
  - split; [intros []; eauto|]. by intros (? & ? & ? & ?); simplify_eq.
  - split; [by intros []|]. by intros (? & ? & _).
Qed.

(** A binding whose construction has completed is served from the registry:
    the constructor at hand is not called, the world is unchanged. *)
Lemma resolveBinding_sealed w r b v (c : M (Instance * option error)) :
  sealed w r b v → resolveBinding r b c w = (Ok (v, None), w).
Proof.
  intros (reg & Hr & Hl & Hi)%sealed_lookup.
  by rewrite resolveBinding_unfold, Hr, Hl, Hi.
Qed.

Lemma orderly_ret {A} (a : A) : orderly (U:=U) (ret a).
Proof. intros w. apply steady_refl. Qed.

Lemma steady_bind {A B} (m : M A) (f : A → M B) w :
  steady w (m w).2 →
  (∀ a w', m w = (Ok a, w') → steady w' (f a w').2) →
  steady w (bind m f w).2.
Proof.
  intros Hm Hf. unfold bind. destruct (m w) as [[a|r] w'] eqn:Hmw; simpl in *; [|done].
  eapply steady_trans; [done|]. by apply Hf.
Qed.

Lemma orderly_bind {A B} (m : M A) (f : A → M B) :
  orderly m → (∀ a, orderly (f a)) → orderly (bind m f).
Proof. intros Hm Hf w. apply steady_bind; [apply Hm|]. intros a w' _. apply Hf. Qed.

Lemma orderly_abort {A} (a : abort) : orderly (U:=U) (A:=A) (λ w, (Abort a, w)).
Proof. intros w. apply steady_refl. Qed.

Lemma orderly_getWorld : orderly (U:=U) getWorld.
Proof. intros w. apply steady_refl. Qed.

Lemma orderly_getRegistry r : orderly (U:=U) (getRegistry r).
Proof. intros w. unfold getRegistry. destruct (registries w !! r); apply steady_refl. Qed.

Lemma orderly_userStep (f : U → U) : orderly (userStep f).
Proof. intros w. apply steady_setUser. Qed.

Lemma orderly_resolveBinding r b (c : M (Instance * option error)) :
  orderly c → orderly (resolveBinding r b c).
Proof.
  intros Hc w. rewrite resolveBinding_unfold.
  destruct (registries w !! r) as [reg|] eqn:Hr; [|apply steady_refl].
  destruct (instanceLock reg !! b) as [[]|] eqn:Hl; [apply steady_refl| |].
  - destruct (instances reg !! b); apply steady_refl.
  - assert (lockOf w r b = None) as Hlock by (unfold lockOf; by rewrite Hr).
    assert (steady w (beginConstruction r b w)) as Hbegin
      by (apply steady_beginConstruction; [by rewrite Hr|done]).
    specialize (Hc (beginConstruction r b w)).
    destruct (c (beginConstruction r b w)) as [[[v e]|a] w2]; simpl in *.
    + apply steady_endConstruction; [done| |by eapply steady_trans].
      destruct Hc as [Hext _]. apply (Hext r b).
      rewrite lockOf_beginConstruction, decide_True; [eauto|]. by rewrite Hr.
    + by eapply steady_trans.
Qed.

(** When [resolveBinding] returns, the construction of the binding has
    completed, with the returned value. *)
Lemma resolveBinding_Ok w r b (c : M (Instance * option error)) v e w' :
  orderly c → resolveBinding r b c w = (Ok (v, e), w') → sealed w' r b v.
Proof.
  intros Hc. rewrite resolveBinding_unfold.
  destruct (registries w !! r) as [reg|] eqn:Hr; [|done].
  destruct (instanceLock reg !! b) as [[]|] eqn:Hl; [done| |].
  - destruct (instances reg !! b) eqn:Hi; [|done]. intros; simplify_eq.
    apply sealed_lookup; eauto.
  - specialize (Hc (beginConstruction r b w)).
    destruct (c (beginConstruction r b w)) as [[[v' e']|a] w2]; [|done].
    intros; simplify_eq. apply sealed_endConstruction. simpl in Hc.
    destruct Hc as [Hext _]. eapply lockOf_is_Some_registry, (Hext r b).
    rewrite lockOf_beginConstruction, decide_True; [eauto|]. by rewrite Hr.
Qed.

Lemma orderly_modifyRegistry r (f : instanceRegistry U → instanceRegistry U) :
  (∀ reg, instanceLock (f reg) = instanceLock reg) →
  (∀ reg, instances (f reg) = instances reg) →
  orderly (modifyRegistry r f).
Proof.
  intros Hl Hi w. apply steady_same; [| |done|done]; intros r' b'.
  - by apply lockOf_alter_other.
  - by apply storedOf_alter_other.
Qed.

Lemma orderly_registerDestructionCallback r (cb : U → U) :
  orderly (registerDestructionCallback r cb).
Proof.
  apply orderly_bind; [apply orderly_getRegistry|]. intros _.
  by apply orderly_modifyRegistry.
Qed.

Lemma orderly_shutdownLoop (methods : list (U → U)) n : orderly (shutdownLoop methods n).
Proof.
  induction n as [|n IH]; simpl; [apply orderly_ret|].
  destruct (methods !! n); [|apply orderly_abort].
  apply orderly_bind; [apply orderly_userStep|done].
Qed.

Lemma orderly_shutdown r : orderly (U:=U) (shutdown r).
Proof.
  apply orderly_bind; [apply orderly_getRegistry|]. intros reg.
  apply orderly_bind; [apply orderly_shutdownLoop|]. intros _.
  by apply orderly_modifyRegistry.
Qed.

Lemma orderly_newInstanceRegistry : orderly (U:=U) newInstanceRegistry.
Proof.
  intros w. unfold newInstanceRegistry, bind, getWorld, modifyWorld, ret. simpl.
  pose proof (is_fresh (dom (registries w))) as Hfresh.
  apply not_elem_of_dom in Hfresh.
  apply steady_same; [| |done|done]; intros r b.
  - unfold lockOf. simpl. destruct (decide (fresh (dom (registries w)) = r)) as [<-|Hne].
    + by rewrite lookup_insert_eq, Hfresh.
    + by rewrite lookup_insert_ne.
  - unfold storedOf. simpl. destruct (decide (fresh (dom (registries w)) = r)) as [<-|Hne].
    + by rewrite lookup_insert_eq, Hfresh.
    + by rewrite lookup_insert_ne.
Qed.

(** Every client program keeps the registries steady. *)
Lemma orderly_run {A} (p : prog U A) : orderly (run p).
Proof.
  induction p as [A a|A k IH|A r b c IHc k IHk|A r cb k IH|A r k IH|A f k IH|A k IH]; simpl.
  - apply orderly_ret.
  - apply orderly_bind; [apply orderly_newInstanceRegistry|done].
  - apply orderly_bind; [by apply orderly_resolveBinding|done].
  - apply orderly_bind; [apply orderly_registerDestructionCallback|done].
  - apply orderly_bind; [apply orderly_shutdown|done].
  - apply orderly_bind; [apply orderly_userStep|done].
  - apply orderly_bind; [apply orderly_getWorld|]. intros w. apply IH.
Qed.

Lemma consistent_invocations_le w r b : consistent w → invocations w r b ≤ 1.
Proof. intros Hc. rewrite (Hc r b). destruct (lockOf w r b); lia. Qed.

Lemma consistent_sealed_invocations w r b v :
  consistent w → sealed w r b v → invocations w r b = 1.
Proof. intros Hc [Hl _]. by rewrite (Hc r b), Hl. Qed.


End Orderly.

Section RegistryTheorems2.
Context {U : Type}.
Local Abbreviation M := (M U).
Local Abbreviation world := (world U).

(** C1: in a world whose log agrees with its locks, let a first
    [resolveBinding] of a binding complete, its constructor being any client
    program, and let any client program run afterwards (it may resolve this
    binding and others any number of times, also from inside constructors).
    Then the constructor of the binding was invoked once by the first call
    and never again; a later [resolveBinding] of the binding returns the
    value stored by the first call and leaves the world unchanged, whatever
    constructor it is given; and no constructor of any binding was invoked
    twice. *)
Theorem resolveBinding_at_most_once (w : world) (r binding : nat)
    (instanceCreator : prog U (Instance * option error)) (v : Instance) (err : option error)
    (w1 : world) {A : Type} (client : prog U A) :
  consistent w →
  lockOf w r binding = None →
  resolveBinding r binding (run instanceCreator) w = (Ok (v, err), w1) →
  let w2 := (run client w1).2 in
  invocations w r binding = 0 ∧
  invocations w1 r binding = 1 ∧
  invocations w2 r binding = 1 ∧
  (∀ later : M (Instance * option error),
     resolveBinding r binding later w2 = (Ok (v, None), w2)) ∧
  (∀ r' binding', invocations w2 r' binding' ≤ 1).
Proof.
  intros Hcons Hlock Hfirst w2.
  pose proof (orderly_resolveBinding r binding _ (orderly_run instanceCreator) w) as Hs1.
  rewrite Hfirst in Hs1. simpl in Hs1.
  pose proof (orderly_run client w1) as Hs2. fold w2 in Hs2.
  assert (sealed w1 r binding v) as Hsealed1
    by (eapply resolveBinding_Ok; [apply orderly_run|done]).
  assert (consistent w1) as Hcons1 by by apply Hs1.
  assert (consistent w2) as Hcons2 by by apply Hs2.
  assert (sealed w2 r binding v) as Hsealed2 by by apply Hs2.
  split; [by rewrite (Hcons r binding), Hlock|].
  split; [by eapply consistent_sealed_invocations|].
  split; [by eapply consistent_sealed_invocations|].
  split; [intros later; by apply resolveBinding_sealed|].
  intros r' b'. by apply consistent_invocations_le.
Qed.

(** C2, amended: when the constructor of a first [resolveBinding] fails, a
    second [resolveBinding] of the binding in the registry does not call the
    constructor it is given and leaves the world unchanged; it returns the
    value stored by the first call together with a nil error: the failure
    itself is not stored. *)
Theorem resolveBinding_failure_not_retried (w : world) (r binding : nat)
    (instanceCreator : prog U (Instance * option error)) (v : Instance) (err : error)
    (w1 : world) (later : M (Instance * option error)) :
  resolveBinding r binding (run instanceCreator) w = (Ok (v, Some err), w1) →
  resolveBinding r binding later w1 = (Ok (v, None), w1).
Proof.
  intros Hfirst. apply resolveBinding_sealed.
  eapply resolveBinding_Ok; [apply orderly_run|done].
Qed.

(** C4, amended: after a contextual scope was entered in a context, a
    binding resolved under it and the scope exited for the context so
    obtained, a further resolution of the binding with this context still
    finds the registry: it returns the value stored by the first resolution,
    without error and without calling the constructor.  It is with the
    parent context, when that one carries no registry under the key, that
    resolution fails with "scope not active". *)
Theorem contextualScope_resolve_after_shutdown (w : world) (parent : Context) (key : ctxKey)
    (ctx : Context) (binding : nat) (instanceCreator : prog U (Instance * option error))
    (v : Instance) (err : option error) (w1 w2 w3 : world)
    (later : M (Instance * option error)) :
  WithContextualScopeEnabled parent key w = (Ok ctx, w1) →
  contextualScope_ResolveBinding key ctx binding (run instanceCreator) w1 = (Ok (v, err), w2) →
  ShutdownContextualScope ctx key w2 = (Ok tt, w3) →
  contextualScope_ResolveBinding key ctx binding later w3 = (Ok (v, None), w3) ∧
  (match parent with
   | Some c => ctxRegistry c key = None
   | None => True
   end →
   contextualScope_ResolveBinding key parent binding later w3
     = (Ok (VInvalid, Some contextScopedNotActiveError), w3)).
Proof.
  intros Henter Hresolve Hexit.
  unfold WithContextualScopeEnabled in Henter.
  destruct (newInstanceRegistry w) as [[r|a] w'] eqn:Hnew;
    [rewrite (bind_Ok _ _ _ _ _ Hnew) in Henter|by rewrite (bind_Abort _ _ _ _ _ Hnew) in Henter].
  destruct parent as [c|]; [|done]. destruct key as [|k]; [done|].
  unfold ret in Henter. simplify_eq.
  assert (ctxRegistry (WithValue c k (CReg r)) (keyOf k) = Some r) as Hreg
    by (unfold ctxRegistry; simpl; by rewrite decide_True).
  split.
  - unfold contextualScope_ResolveBinding in *. rewrite Hreg in *.
    unfold ShutdownContextualScope in Hexit. rewrite Hreg in Hexit.
    apply resolveBinding_sealed.
    pose proof (orderly_shutdown r w2) as Hs. rewrite Hexit in Hs.
    apply Hs. eapply resolveBinding_Ok; [apply orderly_run|done].
  - intros Hnone. unfold contextualScope_ResolveBinding. by rewrite Hnone.
Qed.

End RegistryTheorems2.

(** A registry, a constructor that registers a callback, and a client that
    resolves the binding again and shuts the registry down. *)
Lemma resolveBinding_at_most_once_witness :
  let w : world nat := mkWorld {[0 := emptyRegistry]} ∅ 0 0 [] in
  let creator : prog nat (Instance * option error) :=
    UserCode S (RegisterCallback 0 S (Return (demoValue, None))) in
  let w1 := (resolveBinding 0 7 (run creator) w).2 in
  let client : prog nat unit :=
    ResolveBinding 0 7 creator (λ _,
      ResolveBinding 0 8 (ResolveBinding 0 7 creator Return) (λ _,
        ShutdownRegistry 0 (Return tt))) in
  let w2 := (run client w1).2 in
  consistent w ∧ lockOf w 0 7 = None ∧
  resolveBinding 0 7 (run creator) w = (Ok (demoValue, None), w1) ∧
  invocations w 0 7 = 0 ∧
  invocations w1 0 7 = 1 ∧
  invocations w2 0 7 = 1 ∧
  (∀ later : M nat (Instance * option error),
     resolveBinding 0 7 later w2 = (Ok (demoValue, None), w2)) ∧
  (∀ r' binding', invocations w2 r' binding' ≤ 1).
Proof.
  intros w creator w1 client w2.
  assert (consistent w) as Hcons by (intros r b; unfold lockOf; simpl;
    destruct (decide (r = 0)) as [->|?];
      [by rewrite lookup_singleton_eq|by rewrite lookup_singleton_ne]).
  split; [exact Hcons|]. split; [reflexivity|]. split; [reflexivity|].
  exact (resolveBinding_at_most_once w 0 7 creator demoValue None w1 client
           Hcons eq_refl eq_refl).
Defined.

Lemma resolveBinding_failure_not_retried_witness :
  let w : world nat := mkWorld {[0 := emptyRegistry]} ∅ 0 0 [] in
  let creator : prog nat (Instance * option error) :=
    UserCode S (Return (VInvalid, Some (errorString "boom"))) in
  let w1 := (resolveBinding 0 7 (run creator) w).2 in
  resolveBinding 0 7 (run creator) w = (Ok (VInvalid, Some (errorString "boom")), w1) ∧
  resolveBinding 0 7 (run creator) w1 = (Ok (VInvalid, None), w1).
Proof.
  intros w creator w1. split; [reflexivity|].
  exact (resolveBinding_failure_not_retried w 0 7 creator VInvalid (errorString "boom") w1
           (run creator) eq_refl).
Defined.

(** C2 as stated fails: the constructor fails on the first call; the second
    call does not call it (the user state stays 1) but returns a nil error. *)
Lemma resolveBinding_failure_memoized_counterexample :
  let w : world nat := mkWorld {[0 := emptyRegistry]} ∅ 0 0 [] in
  let creator : M nat (Instance * option error) :=
    userStep S ;;; ret (VInvalid, Some (errorString "boom")) in
  let first := resolveBinding 0 7 creator w in
  let second := resolveBinding 0 7 creator first.2 in
  first.1 = Ok (VInvalid, Some (errorString "boom")) ∧
  user first.2 = 1 ∧
  second.1 = Ok (VInvalid, None) ∧
  user second.2 = 1.
Proof. vm_compute. by repeat split. Qed.

Lemma contextualScope_resolve_after_shutdown_witness :
  let w : world nat := emptyWorld 0 in
  let creator : prog nat (Instance * option error) :=
    UserCode S (RegisterCallback 0 S (Return (demoValue, None))) in
  let ctx := Some (WithValue Background 5 (CReg 0)) in
  let w1 := (WithContextualScopeEnabled (Some Background) (keyOf 5) w).2 in
  let w2 := (contextualScope_ResolveBinding (keyOf 5) ctx 7 (run creator) w1).2 in
  let w3 := (ShutdownContextualScope ctx (keyOf 5) w2).2 in
  WithContextualScopeEnabled (Some Background) (keyOf 5) w = (Ok ctx, w1) ∧
  contextualScope_ResolveBinding (keyOf 5) ctx 7 (run creator) w1
    = (Ok (demoValue, None), w2) ∧
  ShutdownContextualScope ctx (keyOf 5) w2 = (Ok tt, w3) ∧
  contextualScope_ResolveBinding (keyOf 5) ctx 7 (run creator) w3
    = (Ok (demoValue, None), w3) ∧
  (ctxRegistry Background (keyOf 5) = None →
   contextualScope_ResolveBinding (keyOf 5) (Some Background) 7 (run creator) w3
     = (Ok (VInvalid, Some contextScopedNotActiveError), w3)).
Proof.
  intros w creator ctx w1 w2 w3.
  split; [reflexivity|]. split; [reflexivity|]. split; [reflexivity|].
  exact (contextualScope_resolve_after_shutdown w (Some Background) (keyOf 5) ctx 7 creator
           demoValue None w1 w2 w3 (run creator) eq_refl eq_refl eq_refl).
Defined.

(** A constructor that resolves the binding under construction: the nested
    call waits for a lock that its own goroutine holds, and nothing returns. *)
Example resolveBinding_reentrant_deadlock :
  let w : world nat := mkWorld {[0 := emptyRegistry]} ∅ 0 0 [] in
  (resolveBinding 0 7 (resolveBinding 0 7 (ret (demoValue, None))) w).1 = Abort Deadlock.
Proof. reflexivity. Qed.

(** C4 as stated fails: enter, resolve, exit, resolve again with the same
    context: the second resolution succeeds with the stored value, and the
    constructor and the destruction callback have each run once. *)
Lemma contextualScope_resolve_after_shutdown_counterexample :
  let w : world nat := emptyWorld 0 in
  let creator : M nat (Instance * option error) :=
    userStep S ;;; registerDestructionCallback 0 (λ u, u + 10) ;;; ret (demoValue, None) in
  let entered := WithContextualScopeEnabled (Some Background) (keyOf 5) w in
  let ctx := Some (WithValue Background 5 (CReg 0)) in
  let first := contextualScope_ResolveBinding (keyOf 5) ctx 7 creator entered.2 in
  let exited := ShutdownContextualScope ctx (keyOf 5) first.2 in
  let second := contextualScope_ResolveBinding (keyOf 5) ctx 7 creator exited.2 in
  entered.1 = Ok ctx ∧
  first.1 = Ok (demoValue, None) ∧
  exited.1 = Ok tt ∧
  user exited.2 = 11 ∧
  second.1 = Ok (demoValue, None) ∧
  second.1 ≠ Ok (VInvalid, Some contextScopedNotActiveError) ∧
  user second.2 = 11.
Proof. vm_compute. by repeat split. Qed.

(** ** The resolution functions keep what a relation on worlds keeps *)

Section EngineRelation.
Context {U : Type}.
Local Abbreviation M := (M U).
Local Abbreviation world := (world U).
Local Abbreviation binding := (binding U).
Implicit Types w : world.

Variable AssignableTo : rtype → rtype → bool.
Variable R : world → world → Prop.
Variable i : nat.
Hypothesis R_refl : ∀ w, R w w.
Hypothesis R_trans : ∀ w1 w2 w3, R w1 w2 → R w2 w3 → R w1 w3.
Hypothesis R_user : ∀ w f, R w (setUser f w).
Hypothesis R_injectors : ∀ w w', R w w' → injectors w' !! i = injectors w !! i.

Lemma R_bind {A B} (m : M A) (f : A → M B) w :
  R w (m w).2 →
  (∀ a w', m w = (Ok a, w') → R w w' → R w' (f a w').2) →
  R w (bind m f w).2.
Proof using R_trans.
  intros Hm Hf. unfold bind. destruct (m w) as [[a|r] w'] eqn:Hmw; simpl in *; [|done].
  eapply R_trans; [done|]. by apply Hf.
Qed.

Lemma R_Call (f : func U) args w : R w (Call f args w).2.
Proof using R_refl R_user.
  unfold Call. destruct (forallb IsValid args); [|apply R_refl].
  destruct (fCall f args (user w)) as [res u] eqn:Hcall. simpl. apply R_user.
Qed.

Lemma R_index s n w : R w (index (U:=U) s n w).2.
Proof using R_refl. unfold index. destruct (s !! n); apply R_refl. Qed.

Lemma R_IsZero v w : R w (IsZero (U:=U) v w).2.
Proof using R_refl. destruct v; apply R_refl. Qed.

Lemma R_interfaceError v w : R w (interfaceError (U:=U) AssignableTo v w).2.
Proof using R_refl. destruct v; apply R_refl. Qed.

Lemma R_Append n r w : R w (Append (U:=U) n r w).2.
Proof using R_refl.
  destruct n; try apply R_refl. simpl. destruct (IsValid r); apply R_refl.
Qed.

Lemma R_getInjector w : R w (getInjector (U:=U) i w).2.
Proof using R_refl. unfold getInjector. destruct (injectors w !! i); apply R_refl. Qed.

Section WithRec.
Variable rec : Context → rtype → string → bool → M (value * option error).
Hypothesis R_rec : ∀ ctx t annotation optional w, R w (rec ctx t annotation optional w).2.

Lemma R_setParamFieldsLoop ctx structFields fieldIndex fields w :
  R w (setParamFieldsLoop rec ctx structFields fieldIndex fields w).2.
Proof using R_refl R_trans R_rec.
  revert fieldIndex fields w.
  induction structFields as [|f rest IH]; intros fieldIndex fields w; simpl; [apply R_refl|].
  case_bool_decide; [apply IH|].
  destruct (fInjectTag f) as [tag|]; [|apply IH].
  destruct (negb (fExported f)); [apply R_refl|].
  apply R_bind; [apply R_rec|]. intros [instance [err|]] w' _ _; [apply R_refl|].
  destruct (IsValid instance); [apply IH|].
  destruct (existsb _ _); [apply IH|apply R_refl].
Qed.

Lemma R_setParamFields ctx embeddedType w : R w (setParamFields rec ctx embeddedType w).2.
Proof using R_refl R_trans R_rec.
  destruct embeddedType; try apply R_refl. apply R_setParamFieldsLoop.
Qed.

Lemma R_createEmbeddedParams ctx embeddedType w :
  R w (createEmbeddedParams rec ctx embeddedType w).2.
Proof using R_refl R_trans R_rec.
  unfold createEmbeddedParams.
  destruct embeddedType;
    (apply R_bind; [apply R_setParamFields|]; intros [? ?] ? _ _; apply R_refl).
Qed.

Lemma R_getFunctionArgumentInstance ctx argType w :
  R w (getFunctionArgumentInstance rec ctx argType w).2.
Proof using R_refl R_trans R_rec.
  unfold getFunctionArgumentInstance.
  destruct (EmbedsParams argType); [apply R_createEmbeddedParams|apply R_rec].
Qed.

Lemma R_resolveArguments ctx argIndex argTypes w :
  R w (resolveArguments rec ctx argIndex argTypes w).2.
Proof using R_refl R_trans R_rec.
  revert argIndex w. induction argTypes as [|t rest IH]; intros argIndex w; simpl;
    [apply R_refl|].
  apply R_bind; [apply R_getFunctionArgumentInstance|].
  intros [arg [err|]] w' _ _; [apply R_refl|].
  apply R_bind; [apply IH|]. intros [args [err|]] w'' _ _; apply R_refl.
Qed.

Lemma R_callFunctionWithArgumentInstance ctx fValue w :
  R w (callFunctionWithArgumentInstance rec ctx fValue w).2.
Proof using R_refl R_trans R_user R_rec.
  unfold callFunctionWithArgumentInstance.
  apply R_bind; [apply R_resolveArguments|]. intros [args [err|]] w' _ _; [apply R_refl|].
  apply R_bind; [apply R_Call|]. intros res w'' _ _. apply R_refl.
Qed.

Lemma R_binding_create ctx b w : R w (binding_create AssignableTo rec ctx b w).2.
Proof using R_refl R_trans R_user R_rec.
  unfold binding_create.
  apply R_bind; [apply R_callFunctionWithArgumentInstance|].
  intros [res [err|]] w' _ _; [apply R_refl|].
  apply R_bind.
  { destruct (length (fOut (provider b)) =? 2); [|apply R_refl].
    apply R_bind; [apply R_index|]. intros v w'' _ _. apply R_interfaceError. }
  intros err w'' _ _. apply R_bind; [apply R_index|].
  intros res0 w''' _ _. destruct err; apply R_refl.
Qed.

End WithRec.

Hypothesis R_scoped : ∀ rec ctx b w injector,
  (∀ ctx t annotation optional w, R w (rec ctx t annotation optional w).2) →
  injectors w !! i = Some injector → bindingIn injector b →
  R w (getScopedInstanceFromBinding AssignableTo rec i ctx b w).2.

Section WithRec2.
Variable rec : Context → rtype → string → bool → M (value * option error).
Hypothesis R_rec : ∀ ctx t annotation optional w, R w (rec ctx t annotation optional w).2.

Lemma R_appendInstances ctx injector bindings n w :
  injectors w !! i = Some injector → Forall (bindingIn injector) bindings →
  R w (appendInstances AssignableTo rec i ctx bindings n w).2.
Proof using R_refl R_trans R_injectors R_scoped R_rec.
  intros Hinj Hall. revert n w Hinj.
  induction Hall as [|b rest Hb _ IH]; intros n w Hinj; simpl; [apply R_refl|].
  apply R_bind; [by eapply R_scoped|].
  intros [r [err|]] w' _ Hw'; [apply R_refl|].
  apply R_bind; [apply R_Append|]. intros n' w'' _ Hw''.
  apply IH. by rewrite (R_injectors _ _ Hw''), (R_injectors _ _ Hw').
Qed.

Lemma findBindings_bindingIn (injector : Injector U) t annotation :
  Forall (bindingIn injector) (findBindingsForAnnotatedType injector t annotation).
Proof.
  unfold findBindingsForAnnotatedType.
  destruct (bindings injector !! t) as [byAnnotation|] eqn:Ht; [|done].
  destruct (byAnnotation !! annotation) as [l|] eqn:Ha; simpl; [|done].
  destruct (0 <? length l); [|done].
  apply Forall_forall. intros b Hb%list_elem_of_In. by exists t, byAnnotation, annotation, l.
Qed.

Lemma R_resolveAnnotatedType ctx t annotation optional w :
  R w (resolveAnnotatedType AssignableTo rec i ctx t annotation optional w).2.
Proof using R_refl R_trans R_injectors R_scoped R_rec.
  unfold resolveAnnotatedType, getInjector, bind at 1.
  destruct (injectors w !! i) as [injector|] eqn:Hinj; [|apply R_refl].
  assert (∀ t', R w
    ((let bindings := findBindingsForAnnotatedType injector t' annotation in
      if 1 <? length bindings then
        ret (VInvalid, Some (newInjectionError t' annotation
                               (errorString "found multiple bindings expected one")))
      else
        match bindings with
        | b :: _ => getScopedInstanceFromBinding AssignableTo rec i ctx b
        | [] =>
            if isProviderType t' then
              v <- createProviderValue i t' annotation optional ;; ret (v, None)
            else if bool_decide (t' = invocationContextReflectType) then
              ret (ValueOfContext ctx, None)
            else if optional then ret (VInvalid, None)
            else ret (VInvalid, Some (newInjectionError t' annotation
                                        (errorString "did not found binding, expected one")))
        end) w).2) as Hsingle.
  { intros t'. pose proof (findBindings_bindingIn injector t' annotation) as Hall.
    simpl. destruct (1 <? length _); [apply R_refl|].
    destruct (findBindingsForAnnotatedType injector t' annotation) as [|b rest].
    - destruct (isProviderType t').
      + apply R_bind; [|intros; apply R_refl].
        destruct t' as [| | |ins [|??]|]; apply R_refl.
      + case_bool_decide; [apply R_refl|]. destruct optional; apply R_refl.
    - eapply R_scoped; [done..|]. by inversion Hall. }
  destruct t; try apply Hsingle.
  simpl. destruct (0 <? length _).
  - eapply R_appendInstances; [done|]. apply findBindings_bindingIn.
  - destruct optional; apply R_refl.
Qed.

End WithRec2.

Lemma R_getInstanceOfAnnotatedType fuel ctx t annotation optional w :
  R w (getInstanceOfAnnotatedType AssignableTo fuel i ctx t annotation optional w).2.
Proof using R_refl R_trans R_injectors R_scoped.
  revert ctx t annotation optional w.
  induction fuel as [|fuel IH]; intros ctx t annotation optional w; simpl; [apply R_refl|].
  by apply R_resolveAnnotatedType.
Qed.

End EngineRelation.

Section EngineSteady.
Context {U : Type}.
Local Abbreviation M := (M U).
Local Abbreviation world := (world U).
Local Abbreviation binding := (binding U).
Implicit Types w : world.
Variable AssignableTo : rtype → rtype → bool.

Lemma orderly_Scope_ResolveBinding scope ctx addr (c : M (Instance * option error)) :
  orderly c → orderly (Scope_ResolveBinding scope ctx addr c).
Proof.
  intros Hc. destruct scope as [|r|key]; simpl.
  - done.
  - by apply orderly_resolveBinding.
  - unfold contextualScope_ResolveBinding. destruct ctx as [c'|]; [|apply orderly_ret].
    destruct (ctxRegistry c' key); [by apply orderly_resolveBinding|apply orderly_ret].
Qed.

Lemma orderly_Scope_RegisterDestructionCallback scope ctx (cb : U → U) :
  orderly (Scope_RegisterDestructionCallback scope ctx cb).
Proof.
  destruct scope as [|r|key]; simpl.
  - apply orderly_ret.
  - apply orderly_registerDestructionCallback.
  - unfold contextualScope_RegisterDestructionCallback.
    destruct ctx as [c'|]; [|apply orderly_abort].
    destruct (ctxRegistry c' key); [apply orderly_registerDestructionCallback|apply orderly_ret].
Qed.

Lemma steady_injectors w w' i : steady w w' → injectors w' !! i = injectors w !! i.
Proof. intros (_ & _ & ->). done. Qed.

Lemma orderly_instanceCreator rec scope ctx (b : binding) :
  (∀ ctx t annotation optional, orderly (rec ctx t annotation optional)) →
  orderly (instanceCreator AssignableTo rec scope ctx b).
Proof.
  intros Hrec. unfold instanceCreator. apply orderly_bind.
  { intros w. apply (R_binding_create AssignableTo steady steady_refl steady_trans steady_setUser).
    intros. apply Hrec. }
  intros [val [err|]]; [apply orderly_ret|].
  destruct (destroyMethod b) as [d|]; [|apply orderly_ret].
  apply orderly_bind; [intros w; apply (R_IsZero steady steady_refl)|].
  intros zero. apply orderly_bind; [|intros; apply orderly_ret].
  destruct (negb zero); [apply orderly_Scope_RegisterDestructionCallback|apply orderly_ret].
Qed.

Lemma orderly_getScopedInstanceFromBinding rec i ctx (b : binding) :
  (∀ ctx t annotation optional, orderly (rec ctx t annotation optional)) →
  orderly (getScopedInstanceFromBinding AssignableTo rec i ctx b).
Proof.
  intros Hrec. unfold getScopedInstanceFromBinding.
  apply orderly_bind; [intros w; apply (R_getInjector steady i steady_refl)|].
  intros injector. destruct (getScopeFromBinding injector b) as [scope|err]; [|apply orderly_ret].
  by apply orderly_Scope_ResolveBinding, orderly_instanceCreator.
Qed.

Lemma orderly_getInstanceOfAnnotatedType fuel i ctx t annotation optional :
  orderly (U:=U) (getInstanceOfAnnotatedType AssignableTo fuel i ctx t annotation optional).
Proof.
  intros w.
  apply (R_getInstanceOfAnnotatedType AssignableTo steady i steady_refl steady_trans
           (λ w w', steady_injectors w w' i)).
  intros rec ctx' b w' injector Hrec _ _. by apply orderly_getScopedInstanceFromBinding.
Qed.

Lemma orderly_callFunctionWithArgumentInstance fuel i ctx (fValue : func U) :
  orderly (callFunctionWithArgumentInstance
             (getInstanceOfAnnotatedType AssignableTo fuel i) ctx fValue).
Proof.
  intros w.
  apply (R_callFunctionWithArgumentInstance steady steady_refl steady_trans steady_setUser).
  intros. apply orderly_getInstanceOfAnnotatedType.
Qed.

(** A successful resolution in the Singleton scope leaves the binding sealed. *)
Lemma getScopedInstanceFromBinding_sealed fuel i ctx (b : binding) injector r w v e w' :
  injectors w !! i = Some injector →
  scopes injector !! scope b = Some (singletonScope r) →
  getScopedInstanceFromBinding AssignableTo (getInstanceOfAnnotatedType AssignableTo fuel i)
    i ctx b w = (Ok (v, e), w') →
  sealed w' r (bAddr b) v.
Proof.
  intros Hinj Hscope. unfold getScopedInstanceFromBinding, getInjector, bind at 1.
  rewrite Hinj. unfold getScopeFromBinding. rewrite Hscope. simpl.
  unfold singletonScope_ResolveBinding. apply resolveBinding_Ok.
  apply orderly_instanceCreator. intros. apply orderly_getInstanceOfAnnotatedType.
Qed.

(** A sealed binding of the Singleton scope is served without constructing. *)
Lemma getScopedInstanceFromBinding_reuse rec i ctx (b : binding) injector r w v :
  injectors w !! i = Some injector →
  scopes injector !! scope b = Some (singletonScope r) →
  sealed w r (bAddr b) v →
  getScopedInstanceFromBinding AssignableTo rec i ctx b w = (Ok (v, None), w).
Proof.
  intros Hinj Hscope Hsealed. unfold getScopedInstanceFromBinding, getInjector, bind at 1.
  rewrite Hinj. unfold getScopeFromBinding. rewrite Hscope. simpl.
  by apply resolveBinding_sealed.
Qed.

(** C8: for a type that is neither a slice, nor a provider function, nor the
    invocation context, and a qualifier with no binding, a request that is
    not optional fails with the "did not found binding, expected one"
    injection error, and the same request marked optional returns the
    invalid value and no error; the world is unchanged in both cases. *)
Theorem resolve_no_binding (fuel i : nat) (ctx : Context) (t : rtype) (annotation : string)
    (injector : Injector U) (w : world) :
  injectors w !! i = Some injector →
  kindOf t ≠ KSlice →
  isProviderType t = false →
  t ≠ invocationContextReflectType →
  findBindingsForAnnotatedType injector t annotation = [] →
  getInstanceOfAnnotatedType AssignableTo (S fuel) i ctx t annotation false w
    = (Ok (VInvalid, Some (injectionError t annotation
                             (errorString "did not found binding, expected one"))), w) ∧
  getInstanceOfAnnotatedType AssignableTo (S fuel) i ctx t annotation true w
    = (Ok (VInvalid, None), w).
Proof.
  intros Hinj Hkind Hprov Hctx Hnone. simpl.
  unfold resolveAnnotatedType, getInjector, bind. rewrite Hinj.
  destruct t; try done; simpl in *; rewrite Hnone; simpl;
    rewrite ?Hprov; rewrite ?bool_decide_eq_false_2 by done; done.
Qed.

Lemma appendInstances_resolveEach rec i ctx (bindings : list binding) t elems w vs err w' :
  resolveEach (getScopedInstanceFromBinding AssignableTo rec i ctx) bindings w
    = (Ok (vs, err), w') →
  Forall (λ v, IsValid v = true) vs →
  appendInstances AssignableTo rec i ctx bindings (VSlice t elems) w
    = (Ok (match err with
           | None => (VSlice t (elems ++ vs), None)
           | Some e => (VInvalid, Some e)
           end), w').
Proof.
  revert elems w vs. induction bindings as [|b rest IH]; intros elems w vs; simpl.
  - unfold ret. intros; simplify_eq. by rewrite app_nil_r.
  - unfold bind at 1 3.
    destruct (getScopedInstanceFromBinding _ _ _ _ _ w) as [[[v [e|]]|a] w1]; [| |done].
    + unfold ret. by intros; simplify_eq.
    + unfold bind at 1.
      destruct (resolveEach _ rest w1) as [[[vs' err']|a] w2] eqn:Hrest; [|done].
      unfold ret. intros ? Hvalid; simplify_eq. inversion Hvalid as [|?? Hv Hvs]; subst.
      unfold bind at 1. simpl. rewrite Hv. simpl.
      rewrite (IH _ _ _ Hrest Hvs). by rewrite <-app_assoc.
Qed.

Lemma resolveEach_length resolve (bindings : list binding) w vs w' :
  resolveEach resolve bindings w = (Ok (vs, None), w') → length vs = length bindings.
Proof.
  revert w vs. induction bindings as [|b rest IH]; intros w vs; simpl.
  - unfold ret. by intros; simplify_eq.
  - unfold bind at 1. destruct (resolve b w) as [[[v [e|]]|a] w1]; [done| |done].
    unfold bind. destruct (resolveEach resolve rest w1) as [[[vs' err']|a] w2] eqn:Hrest; [|done].
    unfold ret. intros; simplify_eq. simpl. f_equal. by eapply IH.
Qed.

(** C7, amended: a request for a slice of [elem] with a qualifier resolves
    the matching bindings one after the other, in the order of the table.
    When there is at least one and each resolves without error to a valid
    value, the result is the slice of these instances, one per binding, in
    that order; when one fails, the request fails with that error, the first
    there is.  When there is none, the result is the empty slice, without
    error for an optional request and with the "did not found binding,
    expected at least one" injection error otherwise. *)
Theorem resolve_slice (fuel i : nat) (ctx : Context) (elem : rtype) (annotation : string)
    (optional : bool) (injector : Injector U) (w : world)
    (vs : list value) (err : option error) (w' : world) :
  let matching := findBindingsForAnnotatedType injector elem annotation in
  injectors w !! i = Some injector →
  resolveEach
    (getScopedInstanceFromBinding AssignableTo (getInstanceOfAnnotatedType AssignableTo fuel i)
       i ctx)
    matching w = (Ok (vs, err), w') →
  Forall (λ v, IsValid v = true) vs →
  getInstanceOfAnnotatedType AssignableTo (S fuel) i ctx (TSlice elem) annotation optional w
    = (Ok (match matching, err with
           | [], _ =>
               (VSlice (TSlice elem) [],
                if optional then None
                else Some (injectionError elem annotation
                             (errorString "did not found binding, expected at least one")))
           | _ :: _, None => (VSlice (TSlice elem) vs, None)
           | _ :: _, Some e => (VInvalid, Some e)
           end), w') ∧
  (err = None → length vs = length matching).
Proof.
  intros matching Hinj Heach Hvalid. split; [|intros ->; by eapply resolveEach_length].
  simpl. unfold resolveAnnotatedType, getInjector, bind at 1. rewrite Hinj.
  fold matching. destruct matching as [|b rest] eqn:Hm.
  - simpl in *. unfold ret in *. simplify_eq. by destruct optional.
  - change (0 <? length (b :: rest)) with true. cbv iota.
    by rewrite (appendInstances_resolveEach _ _ _ _ _ _ _ _ _ _ Heach Hvalid).
Qed.

End EngineSteady.

Section Configuration.
Context {U : Type}.
Local Abbreviation M := (M U).
Local Abbreviation world := (world U).
Local Abbreviation binding := (binding U).
Implicit Types w : world.
Variable AssignableTo : rtype → rtype → bool.
Variable LookupEnv : string → option string.

Lemma bind_eq {A B} (m : M A) (f : A → M B) w :
  bind m f w = match m w with
               | (Ok a, w') => f a w'
               | (Abort r, w') => (Abort r, w')
               end.
Proof. done. Qed.

Lemma grows_refl w : grows w w.
Proof. split; [apply extends_refl|done]. Qed.

Lemma grows_trans w1 w2 w3 : grows w1 w2 → grows w2 w3 → grows w1 w3.
Proof. intros [Ha Hb] [Hc Hd]. split; [by eapply extends_trans|auto]. Qed.

Lemma steady_grows w w' : steady w w' → grows w w'.
Proof. intros (? & ? & _). by split. Qed.

Lemma grows_same w w' :
  registries w' = registries w → created w' = created w → grows w w'.
Proof.
  intros Hr Hc. split.
  - intros r b. unfold sealed, lockOf, storedOf. by rewrite Hr.
  - intros Hcons r b. unfold invocations, lockOf. rewrite Hr, Hc. apply Hcons.
Qed.

Lemma allocatesOnly_refl w : allocatesOnly w w.
Proof. by repeat split. Qed.

Lemma allocatesOnly_trans w1 w2 w3 :
  allocatesOnly w1 w2 → allocatesOnly w2 w3 → allocatesOnly w1 w3.
Proof.
  intros (? & ? & ? & ? & ?) (? & ? & ? & ? & ?). repeat split; try congruence. lia.
Qed.

Lemma addrsBelow_mono n m (bs : list binding) : n ≤ m → addrsBelow n bs → addrsBelow m bs.
Proof. intros Hle. apply Forall_impl. intros b ?. lia. Qed.

Lemma Annotation_apply_bAddr a (b : binding) :
  bAddr (Annotation_apply AssignableTo a b).1 = bAddr b.
Proof.
  destruct a as [target|name|scope|[|?|f]]; simpl; try done.
  - by destruct (negb _).
  - by destruct (_ || _).
Qed.

Lemma applyAnnotations_bAddr annotations (b : binding) :
  bAddr (applyAnnotations AssignableTo annotations b).1 = bAddr b.
Proof.
  revert b. induction annotations as [|a rest IH]; intros b; simpl; [done|].
  pose proof (Annotation_apply_bAddr a b) as Ha.
  destruct (Annotation_apply AssignableTo a b) as [b' [err|]]; simpl in *; [done|].
  by rewrite IH.
Qed.

Lemma configures_provideOption (constructor : anyFunc U) annotations :
  configures (provideOption_apply AssignableTo constructor annotations).
Proof.
  intros cfg w. unfold provideOption_apply.
  destruct constructor as [|?|fnc];
    try (split; [apply allocatesOnly_refl|unfold ret; by intros; simplify_eq]).
  destruct (_ || _);
    [split; [apply allocatesOnly_refl|unfold ret; by intros; simplify_eq]|].
  destruct (_ && _);
    [split; [apply allocatesOnly_refl|unfold ret; by intros; simplify_eq]|].
  unfold newBindingAddr, bind, getWorld, modifyWorld, ret. simpl.
  match goal with |- context [applyAnnotations _ _ ?b0] =>
    pose proof (applyAnnotations_bAddr annotations b0) as Haddr;
    destruct (applyAnnotations AssignableTo annotations b0) as [b [err|]] end;
    simpl in *.
  - split; [repeat split; simpl; lia|].
    intros; simplify_eq. simpl. eapply addrsBelow_mono; [|done]. lia.
  - split; [repeat split; simpl; lia|].
    intros; simplify_eq. simpl. apply Forall_app. split.
    + eapply addrsBelow_mono; [|done]. lia.
    + apply Forall_singleton. lia.
Qed.

Lemma configures_Option_apply (o : Option (U:=U)) : configures (Option_apply AssignableTo LookupEnv o).
Proof.
  induction o as [name options IH|constructor annotations|name scope|condition options IH]
    using Option_nested_ind.
  - simpl. induction IH as [|o rest Ho _ IHrest]; intros cfg w.
    + split; [apply allocatesOnly_refl|unfold ret; by intros; simplify_eq].
    + rewrite !(bind_eq (Option_apply _ _ o cfg)).
      destruct (Ho cfg w) as [Ha Hb].
      destruct (Option_apply _ _ o cfg w) as [[[cfg1 [e|]]|a] w1] eqn:Ho1; simpl in *.
      * split; [done|]. unfold ret. intros; simplify_eq. by eapply Hb.
      * destruct (IHrest cfg1 w1) as [Hc Hd].
        split; [by eapply allocatesOnly_trans|].
        intros cfg' e' w' Heq Hbelow. eapply Hd; [done|]. by eapply Hb.
      * split; [done|]. done.
  - apply configures_provideOption.
  - intros cfg w. simpl. split; [apply allocatesOnly_refl|].
    unfold ret. by intros; simplify_eq.
  - simpl. destruct (Conditional_evaluate LookupEnv condition).
    2:{ intros cfg w. split; [apply allocatesOnly_refl|unfold ret; by intros; simplify_eq]. }
    induction IH as [|o rest Ho _ IHrest]; intros cfg w.
    + split; [apply allocatesOnly_refl|unfold ret; by intros; simplify_eq].
    + rewrite !(bind_eq (Option_apply _ _ o cfg)).
      destruct (Ho cfg w) as [Ha Hb].
      destruct (Option_apply _ _ o cfg w) as [[[cfg1 [e|]]|a] w1] eqn:Ho1; simpl in *.
      * split; [done|]. unfold ret. intros; simplify_eq. by eapply Hb.
      * destruct (IHrest cfg1 w1) as [Hc Hd].
        split; [by eapply allocatesOnly_trans|].
        intros cfg' e' w' Heq Hbelow. eapply Hd; [done|]. by eapply Hb.
      * split; [done|]. done.
Qed.

Lemma configures_applyOptions (options : list (Option (U:=U))) :
  configures (applyOptions AssignableTo LookupEnv options).
Proof.
  induction options as [|o rest IH]; intros cfg w; simpl.
  - split; [apply allocatesOnly_refl|unfold ret; by intros; simplify_eq].
  - rewrite !(bind_eq (Option_apply _ _ o cfg)).
    destruct (configures_Option_apply o cfg w) as [Ha Hb].
    destruct (Option_apply _ _ o cfg w) as [[[cfg1 [e|]]|a] w1] eqn:Ho1; simpl in *.
    + split; [done|]. unfold ret. intros; simplify_eq. by eapply Hb.
    + destruct (IH cfg1 w1) as [Hc Hd].
      split; [by eapply allocatesOnly_trans|].
      intros cfg' e' w' Heq Hbelow. eapply Hd; [done|]. by eapply Hb.
    + split; [done|]. done.
Qed.

End Configuration.

Section Building.
Context {U : Type}.
Local Abbreviation M := (M U).
Local Abbreviation world := (world U).
Local Abbreviation binding := (binding U).
Implicit Types w : world.
Variable AssignableTo : rtype → rtype → bool.
Variable LookupEnv : string → option string.
Variable mapIter : ∀ A : Type, list A → list A.

Lemma NewInjector_unfold fuel options w :
  NewInjector AssignableTo LookupEnv mapIter fuel options w =
    match applyOptions AssignableTo LookupEnv options (mkConfiguration [] ∅) w with
    | (Ok (cfg, Some err), w0) => (Ok (None, Some err), w0)
    | (Ok (cfg, None), w0) =>
        match eagerlyCreateSingletons AssignableTo mapIter fuel (fresh (dom (injectors w0)))
                (builtWorld mapIter cfg w0) with
        | (Ok (Some err), w3) => (Ok (None, Some err), w3)
        | (Ok None, w3) => (Ok (Some (fresh (dom (injectors w0))), None), w3)
        | (Abort a, w3) => (Abort a, w3)
        end
    | (Abort a, w0) => (Abort a, w0)
    end.
Proof.
  unfold NewInjector. rewrite bind_eq.
  destruct (applyOptions _ _ options _ w) as [[[cfg [err|]]|a] w0]; [done| |done].
  unfold newSingletonScope, newInstanceRegistry, newInjectorAddr, newBindingAddr,
    modifyInjector, bind, getWorld, modifyWorld, ret. simpl.
  match goal with |- context [eagerlyCreateSingletons _ _ _ _ ?w'] =>
    change w' with (builtWorld mapIter cfg w0) end.
  by destruct (eagerlyCreateSingletons _ _ _ _ _) as [[[?|]|?] ?].
Qed.

Lemma tableIn_empty (b : binding) : ¬ tableIn ∅ b.
Proof. intros (t & m & a & l & Ht & _). by rewrite lookup_empty in Ht. Qed.

Lemma tableIn_insert table t m (b : binding) :
  tableIn (<[t := m]> table) b →
  (∃ annotation l, m !! annotation = Some l ∧ b ∈ l) ∨ tableIn table b.
Proof.
  intros (t' & m' & a & l & Ht & Ha & Hb).
  destruct (decide (t = t')) as [->|Hne].
  - rewrite lookup_insert_eq in Ht. simplify_eq. left. eauto.
  - rewrite lookup_insert_ne in Ht by done. right. by exists t', m', a, l.
Qed.

Lemma tableIn_addBinding x table (b : binding) :
  tableIn (addBinding x table) b → b = x ∨ tableIn table b.
Proof.
  intros [(a & l & Ha & Hb)|Hin]%tableIn_insert; [|by right].
  destruct (table !! typeof x) as [byAnnotation|] eqn:Ht; simpl in Ha.
  - destruct (decide (annotatedWith x = a)) as [<-|Hne].
    + rewrite lookup_insert_eq in Ha. simplify_eq.
      apply elem_of_app in Hb as [Hb|Hb%list_elem_of_singleton]; [|by left].
      right. destruct (byAnnotation !! annotatedWith x) as [l|] eqn:Hl; simpl in Hb.
      * by exists (typeof x), byAnnotation, (annotatedWith x), l.
      * by apply elem_of_nil in Hb.
    + rewrite lookup_insert_ne in Ha by done. right.
      by exists (typeof x), byAnnotation, a, l.
  - destruct (decide (annotatedWith x = a)) as [<-|Hne].
    + rewrite lookup_insert_eq in Ha. simplify_eq. rewrite lookup_empty in Hb. simpl in Hb.
      apply list_elem_of_singleton in Hb. by left.
    + rewrite lookup_insert_ne, lookup_empty in Ha by done. done.
Qed.

Lemma tableIn_foldl_addBinding (l : list binding) table (b : binding) :
  tableIn (foldl (λ table b, addBinding b table) table l) b → b ∈ l ∨ tableIn table b.
Proof.
  revert table. induction l as [|x l IH]; intros table; simpl; [by right|].
  intros [Hb|[->|Hb]%tableIn_addBinding]%IH.
  - left. by right.
  - left. by left.
  - by right.
Qed.

Lemma builtTable_injectorType cfg i addr :
  builtTable mapIter cfg i addr !! injectorType
    = Some {[ EmptyString := [injectorBinding (U:=U) i addr] ]}.
Proof. unfold builtTable. by rewrite lookup_insert_eq. Qed.

Section Forloops.
Variable R : world → world → Prop.
Hypothesis R_refl : ∀ w, R w w.
Hypothesis R_trans : ∀ w1 w2 w3, R w1 w2 → R w2 w3 → R w1 w3.

Lemma forEach_R {A} (l : list A) (body : A → M (option error)) w0 w :
  (∀ x w, x ∈ l → R w0 w → R w (body x w).2) →
  R w0 w → R w (forEach l body w).2.
Proof using R_refl R_trans.
  revert w. induction l as [|x l IH]; intros w Hbody Hw; simpl; [apply R_refl|].
  rewrite bind_eq. pose proof (Hbody x w (list_elem_of_here _ _) Hw) as Hx.
  destruct (body x w) as [[[e|]|a] w'] eqn:Hbx; simpl in *; [done| |done].
  eapply R_trans; [done|]. apply IH; [|by eapply R_trans].
  intros y w'' Hy. apply Hbody. by right.
Qed.

(** When the loop ends without error, every iteration has ended without
    error; what an iteration establishes and [R] keeps holds at the end. *)
Lemma forEach_None {A} (l : list A) (body : A → M (option error))
    (P : A → world → Prop) w0 w w1 :
  (∀ x w, x ∈ l → R w0 w → R w (body x w).2) →
  (∀ x w w', x ∈ l → R w0 w → body x w = (Ok None, w') → P x w') →
  (∀ x w w', P x w → R w w' → P x w') →
  R w0 w → forEach l body w = (Ok None, w1) →
  ∀ x, x ∈ l → P x w1.
Proof using R_refl R_trans.
  intros Hbody Hpost Hstable. revert w.
  induction l as [|x l IH]; intros w Hw Hloop y Hy; [by apply elem_of_nil in Hy|].
  simpl in Hloop. rewrite bind_eq in Hloop.
  pose proof (Hbody x w (list_elem_of_here _ _) Hw) as Hx.
  destruct (body x w) as [[[e|]|a] w'] eqn:Hbx; simpl in *; [done| |done].
  assert (R w0 w') as Hw' by by eapply R_trans.
  apply elem_of_cons in Hy as [->|Hy].
  - assert (R w' w1) as HR.
    { pose proof (forEach_R l body w0 w'
                    (λ z w'' Hz, Hbody z w'' (list_elem_of_further _ _ _ Hz)) Hw') as H.
      by rewrite Hloop in H. }
    eapply Hstable; [|exact HR]. eapply Hpost; [left|exact Hw|exact Hbx].
  - eapply (IH (λ z w'' Hz, Hbody z w'' (list_elem_of_further _ _ _ Hz))
               (λ z w'' w''' Hz, Hpost z w'' w''' (list_elem_of_further _ _ _ Hz))); done.
Qed.


End Forloops.

End Building.

Section Eager.
Context {U : Type}.
Local Abbreviation M := (M U).
Local Abbreviation world := (world U).
Local Abbreviation binding := (binding U).
Implicit Types w : world.
Variable AssignableTo : rtype → rtype → bool.
Variable mapIter : ∀ A : Type, list A → list A.
Hypothesis mapIter_perm : ∀ (A : Type) (l : list A), mapIter A l ≡ₚ l.

Lemma eagerlyCreateSingletons_eq fuel i :
  eagerlyCreateSingletons (U:=U) AssignableTo mapIter fuel i =
    (injector <- getInjector i ;;
     forEach (mapIter _ (map_to_list (bindings injector))) (λ '(_, bindingsByAnnotation),
       forEach (mapIter _ (map_to_list bindingsByAnnotation)) (λ '(_, bindingList),
         forEach bindingList (eagerStep AssignableTo fuel i)))).
Proof. done. Qed.

Lemma orderly_eagerStep fuel i (b : binding) : orderly (eagerStep AssignableTo fuel i b).
Proof.
  unfold eagerStep. destruct (String.eqb _ _); [|apply orderly_ret].
  apply orderly_bind.
  - apply orderly_getScopedInstanceFromBinding. intros.
    apply orderly_getInstanceOfAnnotatedType.
  - intros [v [e|]]; apply orderly_ret.
Qed.

Lemma orderly_forEach {A} (l : list A) (body : A → M (option error)) :
  (∀ x, orderly (body x)) → orderly (forEach l body).
Proof.
  intros Hbody w.
  apply (forEach_R steady steady_refl steady_trans l body w w); [|apply steady_refl].
  intros x w' _ _. apply Hbody.
Qed.

Lemma orderly_eagerlyCreateSingletons fuel i :
  orderly (U:=U) (eagerlyCreateSingletons AssignableTo mapIter fuel i).
Proof.
  rewrite eagerlyCreateSingletons_eq.
  apply orderly_bind; [intros w; apply (R_getInjector steady i steady_refl)|].
  intros injector. apply orderly_forEach. intros [t m].
  apply orderly_forEach. intros [a l].
  apply orderly_forEach. intros b. apply orderly_eagerStep.
Qed.

Lemma sealed_steady w w' r b v : steady w w' → sealed w r b v → sealed w' r b v.
Proof. intros [Hext _]. apply Hext. Qed.

(** When the eager creation ends without error, every Singleton binding
    of the table is sealed in the singleton registry. *)
Lemma eagerlyCreateSingletons_None fuel i injector r w w1 (b : binding) :
  injectors w !! i = Some injector →
  scopes injector !! Singleton = Some (singletonScope r) →
  eagerlyCreateSingletons AssignableTo mapIter fuel i w = (Ok None, w1) →
  bindingIn injector b → scope b = Singleton →
  ∃ v, sealed w1 r (bAddr b) v.
Proof using mapIter_perm.
  intros Hinj Hscope. rewrite eagerlyCreateSingletons_eq, bind_eq.
  unfold getInjector. rewrite Hinj. intros Hloop (t & m & a & l & Ht & Ha & Hb) Hsingleton.
  set (P3 := λ (b : binding) (w : world),
               scope b = Singleton → ∃ v, sealed w r (bAddr b) v).
  assert (∀ (b : binding) w w', P3 b w → steady w w' → P3 b w') as Hstable.
  { intros b' w2 w3 HP Hs Hb'. destruct (HP Hb') as [v Hv]. exists v. by eapply sealed_steady. }
  assert (∀ (b : binding) w2 w3, steady w w2 → eagerStep AssignableTo fuel i b w2 = (Ok None, w3) → P3 b w3)
    as Hstep.
  { intros b' w2 w3 Hw2 Hrun Hb'. unfold eagerStep in Hrun.
    rewrite Hb' in Hrun. rewrite String.eqb_refl, bind_eq in Hrun.
    destruct (getScopedInstanceFromBinding _ _ _ _ _ w2) as [[[v [e|]]|?] w4] eqn:Hres;
      simpl in Hrun; unfold ret in Hrun; simplify_eq.
    exists v. eapply getScopedInstanceFromBinding_sealed; [| |done].
    - by rewrite (steady_injectors _ _ i Hw2).
    - by rewrite Hb'. }
  refine (forEach_None steady steady_refl steady_trans _ _
            (λ '(_, m) w, ∀ a l, m !! a = Some l → ∀ b, b ∈ l → P3 b w)
            w w w1 _ _ _ (steady_refl w) Hloop (t, m) _ a l Ha b Hb Hsingleton).
  - intros [t' m'] w2 _ _. apply orderly_forEach. intros [a' l'].
    apply orderly_forEach. intros b'. apply orderly_eagerStep.
  - intros [t' m'] w2 w3 _ Hw2 Hloop2 a' l' Ha' b' Hb'.
    refine (forEach_None steady steady_refl steady_trans _ _
              (λ '(_, l) w, ∀ b, b ∈ l → P3 b w)
              w w2 w3 _ _ _ Hw2 Hloop2 (a', l') _ b' Hb').
    + intros [a'' l''] w4 _ _. apply orderly_forEach. intros b''. apply orderly_eagerStep.
    + intros [a'' l''] w4 w5 _ Hw4 Hloop3 b'' Hb''.
      refine (forEach_None steady steady_refl steady_trans _ _ P3
                w w4 w5 _ _ Hstable Hw4 Hloop3 b'' Hb'').
      * intros b3 w6 _ _. apply orderly_eagerStep.
      * intros b3 w6 w7 _ Hw6 Hrun. by eapply Hstep.
    + intros [a'' l''] w4 w5 HP Hs b'' Hb''. eapply Hstable; [by apply HP|done].
    + rewrite mapIter_perm. by apply elem_of_map_to_list.
  - intros [t' m'] w2 w3 HP Hs a' l' Ha' b' Hb'. eapply Hstable; [by eapply HP|done].
  - rewrite mapIter_perm. by apply elem_of_map_to_list.
Qed.


End Eager.

Section InjectorBinding.
Context {U : Type}.
Local Abbreviation M := (M U).
Local Abbreviation world := (world U).
Local Abbreviation binding := (binding U).
Implicit Types w : world.
Variable AssignableTo : rtype → rtype → bool.
Variable mapIter : ∀ A : Type, list A → list A.
Variables i r0 a0 : nat.
Variable inj0 : Injector U.
Hypothesis inj0_unique :
  ∀ b : binding, bindingIn inj0 b → bAddr b = a0 → b = injectorBinding i a0.

Local Abbreviation RQ := (keepsInjector i r0 a0 inj0).

Lemma RQ_refl w : RQ w w.
Proof. split; [apply steady_refl|done]. Qed.

Lemma RQ_trans w1 w2 w3 : RQ w1 w2 → RQ w2 w3 → RQ w1 w3.
Proof.
  intros [Hs1 Hq1] [Hs2 Hq2]. split; [by eapply steady_trans|].
  intros Hinj HQ. apply Hq2; [|by apply Hq1].
  by rewrite (steady_injectors _ _ i Hs1).
Qed.

Lemma RQ_same w w' :
  steady w w' → storedOf w' r0 a0 = storedOf w r0 a0 → RQ w w'.
Proof. intros Hs Heq. split; [done|]. intros _ HQ v. rewrite Heq. apply HQ. Qed.

Lemma RQ_user w (f : U → U) : RQ w (setUser f w).
Proof. apply RQ_same; [apply steady_setUser|done]. Qed.

Lemma RQ_injectors w w' : RQ w w' → injectors w' !! i = injectors w !! i.
Proof. intros [Hs _]. by apply steady_injectors. Qed.

Lemma RQ_registerDestructionCallback r (cb : U → U) w :
  RQ w (registerDestructionCallback r cb w).2.
Proof.
  apply RQ_same; [apply orderly_registerDestructionCallback|].
  unfold registerDestructionCallback, getRegistry. rewrite bind_eq.
  destruct (registries w !! r); [|done]. simpl.
  by apply storedOf_alter_other.
Qed.

Lemma RQ_Scope_RegisterDestructionCallback scope ctx (cb : U → U) w :
  RQ w (Scope_RegisterDestructionCallback scope ctx cb w).2.
Proof.
  destruct scope as [|r|key]; simpl.
  - apply RQ_refl.
  - apply RQ_registerDestructionCallback.
  - unfold contextualScope_RegisterDestructionCallback.
    destruct ctx as [c|]; [|apply RQ_refl].
    destruct (ctxRegistry c key); [apply RQ_registerDestructionCallback|apply RQ_refl].
Qed.

Lemma RQ_instanceCreator rec scope ctx (b : binding) w :
  (∀ ctx t annotation optional w, RQ w (rec ctx t annotation optional w).2) →
  RQ w (instanceCreator AssignableTo rec scope ctx b w).2.
Proof.
  intros Hrec. unfold instanceCreator.
  apply (R_bind RQ RQ_trans).
  { by apply (R_binding_create AssignableTo RQ RQ_refl RQ_trans RQ_user). }
  intros [val [err|]] w' _ _; [apply RQ_refl|].
  destruct (destroyMethod b) as [d|]; [|apply RQ_refl].
  apply (R_bind RQ RQ_trans); [apply (R_IsZero RQ RQ_refl)|].
  intros zero w'' _ _. apply (R_bind RQ RQ_trans); [|intros; apply RQ_refl].
  destruct (negb zero); [apply RQ_Scope_RegisterDestructionCallback|apply RQ_refl].
Qed.

(** The constructor of the binding of the injector returns the injector. *)
Lemma instanceCreator_injectorBinding rec scope ctx w :
  instanceCreator AssignableTo rec scope ctx (injectorBinding i a0) w
    = (Ok (VInjector i, None), setUser (λ _, user w) w).
Proof. done. Qed.

Lemma RQ_resolveBinding r addr (c : M (Instance * option error)) w :
  (∀ w, RQ w (c w).2) →
  (r = r0 → addr = a0 → ∀ w v e w', c w = (Ok (v, e), w') → v = VInjector i) →
  RQ w (resolveBinding r addr c w).2.
Proof.
  intros Hc Hval. split.
  { apply orderly_resolveBinding. intros w'. apply Hc. }
  intros Hinj HQ. rewrite resolveBinding_unfold.
  destruct (registries w !! r) as [reg|] eqn:Hr; [|done].
  destruct (instanceLock reg !! addr) as [[]|] eqn:Hl; [done| |].
  { by destruct (instances reg !! addr). }
  destruct (Hc (beginConstruction r addr w)) as [Hs Hq].
  destruct (c (beginConstruction r addr w)) as [[[v e]|a] w2] eqn:Hrun; simpl in *.
  - intros v'. rewrite storedOf_endConstruction. case_decide as Hd.
    + destruct Hd as (-> & -> & _). intros; simplify_eq. by eapply Hval.
    + apply Hq; [done|]. intros v''. rewrite storedOf_beginConstruction. apply HQ.
  - apply Hq; [done|]. intros v''. rewrite storedOf_beginConstruction. apply HQ.
Qed.

Lemma RQ_getScopedInstanceFromBinding rec ctx (b : binding) w injector :
  (∀ ctx t annotation optional w, RQ w (rec ctx t annotation optional w).2) →
  injectors w !! i = Some injector → bindingIn injector b →
  RQ w (getScopedInstanceFromBinding AssignableTo rec i ctx b w).2.
Proof using inj0_unique.
  intros Hrec Hinj Hin. split.
  { apply orderly_getScopedInstanceFromBinding. intros ???? w'. apply Hrec. }
  intros Hinj0 HQ. rewrite Hinj in Hinj0. simplify_eq.
  unfold getScopedInstanceFromBinding, getInjector. rewrite bind_eq, Hinj.
  destruct (getScopeFromBinding inj0 b) as [scope|err]; [|done].
  assert (∀ r, storesInjector i r0 a0
                 (resolveBinding r (bAddr b)
                    (instanceCreator AssignableTo rec scope ctx b) w).2) as Hres.
  { intros r. apply RQ_resolveBinding; [| |done..].
    - intros w'. by apply RQ_instanceCreator.
    - intros -> Haddr w' v e w''. rewrite (inj0_unique b Hin Haddr).
      rewrite instanceCreator_injectorBinding. by intros; simplify_eq. }
  destruct scope as [|r|key]; simpl.
  - by apply RQ_instanceCreator.
  - apply Hres.
  - unfold contextualScope_ResolveBinding. destruct ctx as [c|]; [|done].
    destruct (ctxRegistry c key); [apply Hres|done].
Qed.

Lemma RQ_getInstanceOfAnnotatedType fuel ctx t annotation optional w :
  RQ w (getInstanceOfAnnotatedType AssignableTo fuel i ctx t annotation optional w).2.
Proof using inj0_unique.
  apply (R_getInstanceOfAnnotatedType AssignableTo RQ i RQ_refl RQ_trans RQ_injectors).
  intros rec ctx' b w' injector Hrec Hinj Hin. by eapply RQ_getScopedInstanceFromBinding.
Qed.

Lemma RQ_eagerStep fuel (b : binding) w injector :
  injectors w !! i = Some injector → bindingIn injector b →
  RQ w (eagerStep AssignableTo fuel i b w).2.
Proof using inj0_unique.
  intros Hinj Hin. unfold eagerStep. destruct (String.eqb _ _); [|apply RQ_refl].
  apply (R_bind RQ RQ_trans).
  - eapply RQ_getScopedInstanceFromBinding; [|done..].
    intros. apply RQ_getInstanceOfAnnotatedType.
  - intros [v [e|]] w' _ _; apply RQ_refl.
Qed.

Hypothesis mapIter_perm : ∀ (A : Type) (l : list A), mapIter A l ≡ₚ l.

Lemma RQ_eagerlyCreateSingletons fuel w :
  RQ w (eagerlyCreateSingletons AssignableTo mapIter fuel i w).2.
Proof using inj0_unique mapIter_perm.
  rewrite eagerlyCreateSingletons_eq, bind_eq. unfold getInjector.
  destruct (injectors w !! i) as [injector|] eqn:Hinj; [|apply RQ_refl].
  apply (forEach_R RQ RQ_refl RQ_trans _ _ w); [|apply RQ_refl].
  intros [t m] w1 Htm Hw1.
  rewrite mapIter_perm in Htm. apply elem_of_map_to_list in Htm.
  apply (forEach_R RQ RQ_refl RQ_trans _ _ w1); [|apply RQ_refl].
  intros [a l] w2 Hal Hw2.
  rewrite mapIter_perm in Hal. apply elem_of_map_to_list in Hal.
  apply (forEach_R RQ RQ_refl RQ_trans _ _ w2); [|apply RQ_refl].
  intros b w3 Hb Hw3. apply (RQ_eagerStep fuel b w3 injector).
  - by rewrite (RQ_injectors _ _ Hw3), (RQ_injectors _ _ Hw2), (RQ_injectors _ _ Hw1).
  - by exists t, m, a, l.
Qed.

End InjectorBinding.

Section Undisturbed.
Context {U : Type}.
Local Abbreviation M := (M U).
Local Abbreviation world := (world U).
Local Abbreviation binding := (binding U).
Implicit Types w : world.
Variable AssignableTo : rtype → rtype → bool.
Variable LookupEnv : string → option string.
Variable mapIter : ∀ A : Type, list A → list A.

Lemma undisturbed_refl i w : undisturbed i w w.
Proof. split; [apply grows_refl|done]. Qed.

Lemma undisturbed_trans i w1 w2 w3 :
  undisturbed i w1 w2 → undisturbed i w2 w3 → undisturbed i w1 w3.
Proof. intros [Ha Hb] [Hc Hd]. split; [by eapply grows_trans|congruence]. Qed.

Lemma steady_undisturbed i w w' : steady w w' → undisturbed i w w'.
Proof. intros Hs. split; [by apply steady_grows|by apply steady_injectors]. Qed.

Lemma orderly_Invoke fuel j ctx (function : anyFunc U) :
  orderly (Invoke AssignableTo fuel j ctx function).
Proof.
  unfold Invoke. destruct function as [|t|f]; try apply orderly_ret.
  destruct (_ || _); [apply orderly_ret|].
  apply orderly_bind; [apply orderly_callFunctionWithArgumentInstance|].
  intros [res [err|]]; [apply orderly_ret|].
  destruct (_ =? _); [|apply orderly_ret].
  apply orderly_bind; [intros w; apply (R_index steady steady_refl)|]. intros res0.
  apply orderly_bind; [intros w; apply (R_interfaceError AssignableTo steady steady_refl)|].
  intros [e|]; [apply orderly_ret|apply orderly_abort].
Qed.

Lemma orderly_callProviderValue fuel v args :
  orderly (U:=U) (callProviderValue AssignableTo fuel v args).
Proof.
  unfold callProviderValue. destruct v; try apply orderly_abort.
  apply orderly_bind; [intros w; apply (R_index steady steady_refl)|]. intros arg.
  destruct arg; try apply orderly_abort.
  apply orderly_bind; [apply orderly_getInstanceOfAnnotatedType|].
  intros [instance err]. apply orderly_ret.
Qed.

Lemma orderly_WithContextualScopeEnabled ctx key :
  orderly (U:=U) (WithContextualScopeEnabled ctx key).
Proof.
  unfold WithContextualScopeEnabled.
  apply orderly_bind; [apply orderly_newInstanceRegistry|]. intros r.
  destruct ctx as [c|]; [|apply orderly_abort].
  destruct key; [apply orderly_abort|apply orderly_ret].
Qed.

Lemma orderly_ShutdownContextualScope ctx key :
  orderly (U:=U) (ShutdownContextualScope ctx key).
Proof.
  unfold ShutdownContextualScope. destruct ctx as [c|]; [|apply orderly_abort].
  destruct (ctxRegistry c key); [apply orderly_shutdown|apply orderly_ret].
Qed.

Lemma grows_same_locks w w' :
  (∀ r b, lockOf w' r b = lockOf w r b) →
  (∀ r b, storedOf w' r b = storedOf w r b) →
  created w' = created w →
  grows w w'.
Proof.
  intros Hl Hs Hc. split.
  - intros r b. unfold sealed. rewrite Hl. split; [done|]. intros v. by rewrite Hs.
  - intros Hcons r b. unfold invocations. rewrite Hc, Hl. apply Hcons.
Qed.

Lemma undisturbed_Shutdown i j w : j ≠ i → undisturbed i w (Shutdown (U:=U) j w).2.
Proof.
  intros Hne. unfold Shutdown, getInjector. rewrite bind_eq.
  destruct (injectors w !! j) as [injector|]; [|apply undisturbed_refl].
  rewrite bind_eq. pose proof (orderly_shutdown (injSingletonScope injector) w) as Hs.
  unfold singletonScope_Shutdown.
  destruct (shutdown (injSingletonScope injector) w) as [[[]|a] w'];
    simpl in *; [|by apply steady_undisturbed].
  eapply undisturbed_trans; [by apply steady_undisturbed|].
  split; [by apply grows_same|]. simpl. by rewrite lookup_alter_ne.
Qed.

Lemma lockOf_insert_fresh_registry w r b :
  lockOf (setRegistries <[fresh (dom (registries w)) := emptyRegistry]> w) r b = lockOf w r b.
Proof.
  pose proof (is_fresh (dom (registries w))) as Hfresh. apply not_elem_of_dom in Hfresh.
  unfold lockOf. simpl. destruct (decide (fresh (dom (registries w)) = r)) as [<-|Hne].
  - by rewrite lookup_insert_eq, Hfresh.
  - by rewrite lookup_insert_ne.
Qed.

Lemma storedOf_insert_fresh_registry w r b :
  storedOf (setRegistries <[fresh (dom (registries w)) := emptyRegistry]> w) r b
    = storedOf w r b.
Proof.
  pose proof (is_fresh (dom (registries w))) as Hfresh. apply not_elem_of_dom in Hfresh.
  unfold storedOf. simpl. destruct (decide (fresh (dom (registries w)) = r)) as [<-|Hne].
  - by rewrite lookup_insert_eq, Hfresh.
  - by rewrite lookup_insert_ne.
Qed.

Lemma grows_builtWorld cfg w : grows w (builtWorld mapIter cfg w).
Proof.
  apply grows_same_locks; [| |done]; intros r b.
  - apply (lockOf_insert_fresh_registry w r b).
  - apply (storedOf_insert_fresh_registry w r b).
Qed.

Lemma builtWorld_injector cfg w :
  injectors (builtWorld mapIter cfg w) !! fresh (dom (injectors w))
    = Some (mkInjector (builtTable mapIter cfg (fresh (dom (injectors w))) (nextBinding w))
              (builtScopes cfg (fresh (dom (registries w)))) (fresh (dom (registries w)))).
Proof. simpl. by rewrite lookup_alter, decide_True, lookup_insert_eq by done. Qed.

Lemma builtWorld_other_injector cfg w i :
  is_Some (injectors w !! i) →
  injectors (builtWorld mapIter cfg w) !! i = injectors w !! i.
Proof.
  intros Hi. pose proof (is_fresh (dom (injectors w))) as Hfresh.
  apply not_elem_of_dom in Hfresh.
  assert (fresh (dom (injectors w)) ≠ i) by (intros <-; rewrite Hfresh in Hi; by destruct Hi).
  simpl. by rewrite lookup_alter_ne, lookup_insert_ne.
Qed.

Lemma builtWorld_registry cfg w b :
  lockOf (builtWorld mapIter cfg w) (fresh (dom (registries w))) b = None ∧
  storedOf (builtWorld mapIter cfg w) (fresh (dom (registries w))) b = None.
Proof. unfold lockOf, storedOf. simpl. by rewrite lookup_insert_eq. Qed.

Lemma builtScopes_Singleton (cfg : configuration (U:=U)) r :
  builtScopes cfg r !! Singleton = Some (singletonScope r).
Proof. unfold builtScopes. by rewrite lookup_insert_ne, lookup_insert_eq. Qed.

Lemma allocatesOnly_grows w w' : allocatesOnly w w' → grows w w'.
Proof. intros (Hr & _ & Hc & _). by apply grows_same. Qed.

Lemma undisturbed_NewInjector i fuel options w :
  is_Some (injectors w !! i) →
  undisturbed i w (NewInjector AssignableTo LookupEnv mapIter fuel options w).2.
Proof.
  intros Hi. rewrite NewInjector_unfold.
  destruct (configures_applyOptions AssignableTo LookupEnv options (mkConfiguration [] ∅) w)
    as [Halloc _].
  assert (undisturbed i w
            (applyOptions AssignableTo LookupEnv options (mkConfiguration [] ∅) w).2) as Hopt.
  { split; [by apply allocatesOnly_grows|]. by destruct Halloc as (_ & -> & _). }
  destruct (applyOptions _ _ options _ w) as [[[cfg [err|]]|a] w0]; simpl in *; [done| |done].
  assert (undisturbed i w0 (builtWorld mapIter cfg w0)) as Hbuilt.
  { split; [apply grows_builtWorld|]. apply builtWorld_other_injector.
    destruct Hopt as [_ ->]. done. }
  pose proof (orderly_eagerlyCreateSingletons AssignableTo mapIter fuel
                (fresh (dom (injectors w0))) (builtWorld mapIter cfg w0)) as Heager.
  apply (steady_undisturbed i) in Heager.
  assert (undisturbed i w
            (eagerlyCreateSingletons AssignableTo mapIter fuel (fresh (dom (injectors w0)))
               (builtWorld mapIter cfg w0)).2) as Hall
    by (eapply undisturbed_trans; [done|]; by eapply undisturbed_trans).
  by destruct (eagerlyCreateSingletons _ _ _ _ _) as [[[?|]|?] ?].
Qed.

(** Calls that do not shut the injector down leave it undisturbed. *)
Lemma undisturbed_afterCall i w c :
  is_Some (injectors w !! i) → keepsAlive i c →
  undisturbed i w (afterCall AssignableTo LookupEnv mapIter w c).
Proof.
  intros Hi Hc. destruct c; simpl in *.
  - by apply undisturbed_NewInjector.
  - apply steady_undisturbed, orderly_Invoke.
  - by apply undisturbed_Shutdown.
  - apply steady_undisturbed, orderly_WithContextualScopeEnabled.
  - apply steady_undisturbed, orderly_ShutdownContextualScope.
  - apply steady_undisturbed, orderly_callProviderValue.
  - apply steady_undisturbed, steady_setUser.
Qed.

Lemma undisturbed_afterCalls i w calls :
  is_Some (injectors w !! i) → Forall (keepsAlive i) calls →
  undisturbed i w (afterCalls AssignableTo LookupEnv mapIter w calls).
Proof.
  intros Hi Hcalls. revert w Hi.
  induction Hcalls as [|c calls Hc _ IH]; intros w Hi; [apply undisturbed_refl|].
  pose proof (undisturbed_afterCall i w c Hi Hc) as Hstep.
  eapply undisturbed_trans; [done|]. apply IH. destruct Hstep as [_ ->]. done.
Qed.

End Undisturbed.

Section InjectorTheorems.
Context {U : Type}.
Local Abbreviation M := (M U).
Local Abbreviation world := (world U).
Local Abbreviation binding := (binding U).
Implicit Types w : world.
Variable AssignableTo : rtype → rtype → bool.
Variable LookupEnv : string → option string.
Variable mapIter : ∀ A : Type, list A → list A.
Hypothesis mapIter_perm : ∀ (A : Type) (l : list A), mapIter A l ≡ₚ l.

Lemma bindingIn_builtTable cfg i addr r (b : binding) :
  bindingIn (mkInjector (builtTable mapIter cfg i addr) (builtScopes cfg r) r) b →
  b = injectorBinding i addr ∨ b ∈ cfgBindings cfg.
Proof using mapIter_perm.
  intros Hin. change (tableIn (builtTable mapIter cfg i addr) b) in Hin.
  apply tableIn_insert in Hin as [(a & l & Ha & Hb)|Hin].
  - left. destruct (decide (a = EmptyString)) as [->|Hne].
    + rewrite lookup_singleton_eq in Ha. simplify_eq. by apply list_elem_of_singleton in Hb.
    + by rewrite lookup_singleton_ne in Ha.
  - right. apply tableIn_foldl_addBinding in Hin as [Hin|Hin].
    + by rewrite mapIter_perm in Hin.
    + by apply tableIn_empty in Hin.
Qed.

Lemma findBindings_builtTable cfg i addr scopes' r :
  findBindingsForAnnotatedType
    (mkInjector (builtTable mapIter cfg i addr) scopes' r) injectorType EmptyString
    = [injectorBinding (U:=U) i addr].
Proof.
  unfold findBindingsForAnnotatedType. simpl bindings.
  rewrite builtTable_injectorType. by rewrite lookup_singleton_eq.
Qed.

(** A request that is not for a slice and has one matching binding. *)
Lemma resolveAnnotatedType_single rec i ctx t annotation optional injector (b : binding) w :
  injectors w !! i = Some injector →
  kindOf t ≠ KSlice →
  findBindingsForAnnotatedType injector t annotation = [b] →
  resolveAnnotatedType AssignableTo rec i ctx t annotation optional w
    = getScopedInstanceFromBinding AssignableTo rec i ctx b w.
Proof.
  intros Hinj Hkind Hfind. unfold resolveAnnotatedType, getInjector.
  rewrite bind_eq, Hinj. destruct t; try done; simpl; by rewrite Hfind.
Qed.

(** Invoking a function of one parameter that returns nothing. *)
Lemma Invoke_one_parameter fuel i ctx t (body : list value → U → U) v w :
  getFunctionArgumentInstance (getInstanceOfAnnotatedType AssignableTo fuel i) ctx t w
    = (Ok (v, None), w) →
  IsValid v = true →
  Invoke AssignableTo fuel i ctx (anyFunction (mkFunc [t] [] (λ args u, ([], body args u)))) w
    = (Ok None, setUser (λ u, body [v] u) w).
Proof.
  intros Harg Hvalid. unfold Invoke, callFunctionWithArgumentInstance. simpl.
  rewrite !bind_eq, Harg. simpl. unfold Call. simpl. rewrite Hvalid. simpl.
  by destruct w.
Qed.

(** What a successful [NewInjector] has built and done. *)
Lemma NewInjector_Some fuel options w i w1 :
  NewInjector AssignableTo LookupEnv mapIter fuel options w = (Ok (Some i, None), w1) →
  ∃ cfg w0,
    allocatesOnly w w0 ∧
    i = fresh (dom (injectors w0)) ∧
    let r := fresh (dom (registries w0)) in
    let injector := mkInjector (builtTable mapIter cfg i (nextBinding w0)) (builtScopes cfg r) r in
    injectors w1 !! i = Some injector ∧
    steady (builtWorld mapIter cfg w0) w1 ∧
    storesInjector i r (nextBinding w0) w1 ∧
    ∀ b : binding, bindingIn injector b → scope b = Singleton → ∃ v, sealed w1 r (bAddr b) v.
Proof using mapIter_perm.
  rewrite NewInjector_unfold.
  destruct (configures_applyOptions AssignableTo LookupEnv options (mkConfiguration [] ∅) w)
    as [Halloc Hbelow].
  destruct (applyOptions _ _ options _ w) as [[[cfg [err|]]|a] w0] eqn:Hopt; [done| |done].
  specialize (Hbelow cfg None w0 eq_refl (Forall_nil_2 _)). simpl in *.
  destruct (eagerlyCreateSingletons _ _ _ _ _) as [[[?|]|?] w3] eqn:Heager; try done.
  intros; simplify_eq. exists cfg, w0. split; [done|]. split; [done|].
  set (i := fresh (dom (injectors w0))) in *.
  set (r := fresh (dom (registries w0))) in *.
  set (injector := mkInjector (builtTable mapIter cfg i (nextBinding w0)) (builtScopes cfg r) r).
  pose proof (builtWorld_injector mapIter cfg w0) as Hinj. fold i r injector in Hinj.
  pose proof (orderly_eagerlyCreateSingletons AssignableTo mapIter fuel i
                (builtWorld mapIter cfg w0)) as Hsteady.
  rewrite Heager in Hsteady. simpl in Hsteady.
  assert (∀ b : binding, bindingIn injector b → bAddr b = nextBinding w0 →
                         b = injectorBinding i (nextBinding w0)) as Hunique.
  { intros b [->|Hb]%bindingIn_builtTable Haddr; [done|].
    unfold addrsBelow in Hbelow. rewrite Forall_forall in Hbelow.
    apply list_elem_of_In, Hbelow in Hb. lia. }
  split; [by rewrite (steady_injectors _ _ i Hsteady)|]. split; [done|]. split.
  - pose proof (RQ_eagerlyCreateSingletons AssignableTo mapIter i r (nextBinding w0) injector
                  Hunique mapIter_perm fuel (builtWorld mapIter cfg w0)) as [_ HQ].
    rewrite Heager in HQ. apply HQ; [done|].
    intros v Hv. pose proof (proj2 (builtWorld_registry mapIter cfg w0 (nextBinding w0))) as Hno.
    fold r in Hno. congruence.
  - intros b Hb Hscope.
    eapply (eagerlyCreateSingletons_None AssignableTo mapIter mapIter_perm); try done.
    apply builtScopes_Singleton.
Qed.


(** C10: the injector returned by [NewInjector] has, for the type
    [*Injector] and the empty qualifier, exactly one binding, of Singleton
    scope, whose instance, stored at construction, is the injector itself.
    Whatever calls are made afterwards short of shutting this injector
    down, a request for [*Injector] is resolved to it, without change of the
    world; so is a parameter of this type, and a function with this one
    parameter is invoked with this injector as argument. *)
Theorem NewInjector_provides_injector (fuel : nat) (options : list Option) (w : world)
    (i : nat) (w1 : world) :
  NewInjector AssignableTo LookupEnv mapIter fuel options w = (Ok (Some i, None), w1) →
  ∃ injector r addr,
    injectors w1 !! i = Some injector ∧
    bindings injector !! injectorType
      = Some {[ EmptyString := [injectorBinding i addr] ]} ∧
    scope (injectorBinding (U:=U) i addr) = Singleton ∧
    scopes injector !! Singleton = Some (singletonScope r) ∧
    sealed w1 r addr (VInjector i) ∧
    ∀ calls fuel' ctx,
      Forall (keepsAlive i) calls →
      let w2 := afterCalls AssignableTo LookupEnv mapIter w1 calls in
      getInstanceOfAnnotatedType AssignableTo (S fuel') i ctx injectorType EmptyString false w2
        = (Ok (VInjector i, None), w2) ∧
      getFunctionArgumentInstance (getInstanceOfAnnotatedType AssignableTo (S fuel') i)
        ctx injectorType w2 = (Ok (VInjector i, None), w2) ∧
      ∀ body : list value → U → U,
        Invoke AssignableTo (S fuel') i ctx
          (anyFunction (mkFunc [injectorType] [] (λ args u, ([], body args u)))) w2
          = (Ok None, setUser (λ u, body [VInjector i] u) w2).
Proof using mapIter_perm.
  intros Hnew.
  destruct (NewInjector_Some _ _ _ _ _ Hnew)
    as (cfg & w0 & Halloc & -> & Hinj & Hsteady & HQ & Hsealed).
  set (i := fresh (dom (injectors w0))) in *.
  set (r := fresh (dom (registries w0))) in *.
  set (addr := nextBinding w0) in *.
  eexists _, r, addr. split; [exact Hinj|].
  split; [apply builtTable_injectorType|]. split; [done|].
  split; [apply builtScopes_Singleton|].
  assert (sealed w1 r addr (VInjector i)) as Hv.
  { destruct (Hsealed (injectorBinding i addr)) as [v Hv]; [|done|].
    - exists injectorType, {[ EmptyString := [injectorBinding i addr] ]}, EmptyString,
        [injectorBinding i addr].
      split; [apply builtTable_injectorType|]. split; [apply lookup_singleton_eq|].
      apply list_elem_of_singleton. done.
    - simpl in Hv. by rewrite (HQ v (proj2 Hv)) in Hv. }
  split; [done|]. intros calls fuel' ctx Hcalls w2.
  destruct (undisturbed_afterCalls AssignableTo LookupEnv mapIter i w1 calls)
    as [[Hext Hc2] Hinj2]; [by rewrite Hinj|done|]. fold w2 in Hext, Hc2, Hinj2.
  rewrite Hinj in Hinj2.
  assert (getInstanceOfAnnotatedType AssignableTo (S fuel') i ctx injectorType EmptyString false w2
          = (Ok (VInjector i, None), w2)) as Hresolve.
  { change (getInstanceOfAnnotatedType AssignableTo (S fuel') i ctx injectorType EmptyString
              false w2)
      with (resolveAnnotatedType AssignableTo (getInstanceOfAnnotatedType AssignableTo fuel' i)
              i ctx injectorType EmptyString false w2).
    erewrite resolveAnnotatedType_single; [|exact Hinj2|done|apply findBindings_builtTable].
    apply (getScopedInstanceFromBinding_reuse AssignableTo _ i ctx (injectorBinding i addr)
             _ r w2 (VInjector i) Hinj2).
    - apply builtScopes_Singleton.
    - by apply Hext. }
  assert (getFunctionArgumentInstance (getInstanceOfAnnotatedType AssignableTo (S fuel') i)
            ctx injectorType w2 = (Ok (VInjector i, None), w2)) as Harg by exact Hresolve.
  split; [done|]. split; [done|].
  intros body. by apply Invoke_one_parameter.
Qed.

End InjectorTheorems.

Lemma demoIter_perm : ∀ (A : Type) (l : list A), demoIter A l ≡ₚ l.
Proof. intros A l. reflexivity. Qed.

Lemma resolve_no_binding_witness :
  let w := (demoNewInjector []).2 in
  injectors w !! 0 = Some (demoInjector w) ∧
  kindOf tParent ≠ KSlice ∧
  isProviderType tParent = false ∧
  tParent ≠ invocationContextReflectType ∧
  findBindingsForAnnotatedType (demoInjector w) tParent EmptyString = [] ∧
  getInstanceOfAnnotatedType demoAssignable 1 0 (Some Background) tParent EmptyString false w
    = (Ok (VInvalid, Some (injectionError tParent EmptyString
                             (errorString "did not found binding, expected one"))), w) ∧
  getInstanceOfAnnotatedType demoAssignable 1 0 (Some Background) tParent EmptyString true w
    = (Ok (VInvalid, None), w).
Proof.
  intros w.
  assert (injectors w !! 0 = Some (demoInjector w)) as H1 by (vm_compute; reflexivity).
  assert (kindOf tParent ≠ KSlice) as H2 by discriminate.
  assert (isProviderType tParent = false) as H3 by reflexivity.
  assert (tParent ≠ invocationContextReflectType) as H4 by discriminate.
  assert (findBindingsForAnnotatedType (demoInjector w) tParent EmptyString = []) as H5
    by (vm_compute; reflexivity).
  repeat (split; [assumption|]).
  exact (resolve_no_binding demoAssignable 0 0 (Some Background) tParent EmptyString
           (demoInjector w) w H1 H2 H3 H4 H5).
Defined.

Lemma resolve_slice_witness :
  let w := (demoNewInjector shapeOptions).2 in
  let resolve :=
    getScopedInstanceFromBinding demoAssignable
      (getInstanceOfAnnotatedType demoAssignable 2 0) 0 (Some Background) in
  let matching := findBindingsForAnnotatedType (demoInjector w) tShape EmptyString in
  let vs := [VData tRectangle 1; VData tSquare 2] in
  injectors w !! 0 = Some (demoInjector w) ∧
  resolveEach resolve matching w = (Ok (vs, None), w) ∧
  Forall (λ v, IsValid v = true) vs ∧
  length matching = 2 ∧
  getInstanceOfAnnotatedType demoAssignable 3 0 (Some Background) (TSlice tShape) EmptyString
    false w = (Ok (VSlice (TSlice tShape) vs, None), w).
Proof.
  intros w resolve matching vs.
  assert (injectors w !! 0 = Some (demoInjector w)) as H1 by (vm_compute; reflexivity).
  assert (resolveEach resolve matching w = (Ok (vs, None), w)) as H2
    by (vm_compute; reflexivity).
  assert (Forall (λ v, IsValid v = true) vs) as H3 by (repeat constructor).
  split; [exact H1|]. split; [exact H2|]. split; [exact H3|].
  split; [vm_compute; reflexivity|].
  pose proof (resolve_slice demoAssignable 2 0 (Some Background) tShape EmptyString false
                (demoInjector w) w vs None w H1 H2 H3) as [Hres _].
  assert (matching = [] → False) as Hne by (vm_compute; discriminate).
  fold matching in Hres. destruct matching; [by destruct Hne|exact Hres].
Defined.

(** C7 as stated fails: one binding matches, of per-lookup scope, and its
    provider fails: the request for the slice returns the error and no slice. *)
Lemma resolve_slice_counterexample :
  let w := (demoNewInjector failingOptions).2 in
  let matching := findBindingsForAnnotatedType (demoInjector w) tParent EmptyString in
  (demoNewInjector failingOptions).1 = Ok (Some 0, None) ∧
  length matching = 1 ∧
  (getInstanceOfAnnotatedType demoAssignable 3 0 (Some Background) (TSlice tParent) EmptyString
     false w).1
    = Ok (VInvalid,
          Some (wrapError (ProviderReturnedError tParent)
                  (userError (TNamed "*errors.errorString") 1))).
Proof. vm_compute. by repeat split. Qed.


(** The failing case of C9: the provider of a Singleton binding fails. *)
Example NewInjector_eager_failure :
  (NewInjector demoAssignable demoEnv demoIter 5
     [provideOption (anyFunction failingParent) []] (emptyWorld 0)).1
    = Ok (None,
          Some (wrapError FailedToGetSingleton
                  (wrapError (ProviderReturnedError tParent)
                     (userError (TNamed "*errors.errorString") 1)))).
Proof. vm_compute. reflexivity. Qed.

Lemma NewInjector_provides_injector_witness :
  let w1 := (demoNewInjector familyOptions).2 in
  let calls : list (apiCall (U:=nat)) :=
    [callInvoke 5 0 (Some Background) (anyFunction newChild);
     callWithContextualScopeEnabled (Some Background) (keyOf 1);
     callNewInjector 5 shapeOptions;
     callShutdown 1] in
  let w2 := afterCalls demoAssignable demoEnv demoIter w1 calls in
  (∀ (A : Type) (l : list A), demoIter A l ≡ₚ l) ∧
  NewInjector demoAssignable demoEnv demoIter 5 familyOptions (emptyWorld 0)
    = (Ok (Some 0, None), w1) ∧
  Forall (keepsAlive 0) calls ∧
  getInstanceOfAnnotatedType demoAssignable 1 0 (Some Background) injectorType EmptyString
    false w2 = (Ok (VInjector 0, None), w2) ∧
  Invoke demoAssignable 1 0 (Some Background)
    (anyFunction (mkFunc [injectorType] []
                    (λ args u, ([], match args with [VInjector i] => 100 + i | _ => 0 end)))) w2
    = (Ok None, setUser (λ _, 100) w2).
Proof.
  intros w1 calls w2.
  assert (NewInjector demoAssignable demoEnv demoIter 5 familyOptions (emptyWorld 0)
          = (Ok (Some 0, None), w1)) as Hnew by (vm_compute; reflexivity).
  assert (Forall (keepsAlive 0) calls) as Hcalls by (repeat constructor; discriminate).
  split; [exact demoIter_perm|]. split; [exact Hnew|]. split; [exact Hcalls|].
  destruct (NewInjector_provides_injector demoAssignable demoEnv demoIter demoIter_perm 5
              familyOptions (emptyWorld 0) 0 w1 Hnew)
    as (injector & r & addr & _ & _ & _ & _ & _ & Hlater).
  destruct (Hlater calls 0 (Some Background) Hcalls) as (Hresolve & _ & Hinvoke).
  split; [exact Hresolve|].
  exact (Hinvoke (λ args _, match args with [VInjector i] => 100 + i | _ => 0 end)).
Defined.

